(** * Verification of the HumDum Burrows-Wheeler index and read-pair mapper

    Shallow embedding of [humdum/index/bw.py] (class [BurrowsWheeler]) and of
    [aligner03/main/atkh.py] (class [AllTheKingsHorses]).

    Python integers are [Z].  A Python exception (IndexError, KeyError,
    ZeroDivisionError, TypeError on [None]) is [None] of the [option] monad.
    Python lists are Rocq lists indexed through [py_get] / [py_set], which
    follow Python's rules, including negative indices. *)

From Stdlib Require Import ZArith Lia List Bool Permutation Sorted.
From Stdlib Require String.
Import ListNotations.
Open Scope Z_scope.

(** ** Python helpers *)

Definition obind {A B} (m : option A) (k : A -> option B) : option B :=
  match m with Some a => k a | None => None end.

Notation "x <- m ;; k" := (obind m (fun x => k))
  (at level 61, m at next level, right associativity).
Notation "' p <- m ;; k" := (obind m (fun x => match x with p => k end))
  (at level 61, p pattern, m at next level, right associativity).

Definition Zlen {A} (l : list A) : Z := Z.of_nat (length l).

(** [l[i]]: negative indices count from the end; out of range raises. *)
Definition py_get {A} (l : list A) (i : Z) : option A :=
  if 0 <=? i then nth_error l (Z.to_nat i)
  else if - Zlen l <=? i then nth_error l (Z.to_nat (Zlen l + i))
  else None.

Fixpoint set_nth {A} (l : list A) (k : nat) (v : A) : option (list A) :=
  match l, k with
  | [], _ => None
  | _ :: r, O => Some (v :: r)
  | x :: r, S k' => r' <- set_nth r k' v;; Some (x :: r')
  end.

(** [l[i] = v] *)
Definition py_set {A} (l : list A) (i : Z) (v : A) : option (list A) :=
  if 0 <=? i then set_nth l (Z.to_nat i) v
  else if - Zlen l <=? i then set_nth l (Z.to_nat (Zlen l + i)) v
  else None.

(** [[x] * n] *)
Definition py_repeat {A} (x : A) (n : Z) : list A := repeat x (Z.to_nat n).

(** [range(lo, hi)] and [range(hi, lo, -1)] *)
Definition range (lo hi : Z) : list Z :=
  map (fun k => lo + Z.of_nat k) (seq 0 (Z.to_nat (hi - lo))).
Definition range_down (hi lo : Z) : list Z :=
  map (fun k => hi - Z.of_nat k) (seq 0 (Z.to_nat (hi - lo))).

(** [int(a / b)]: true division truncated towards zero. *)
Definition py_int_div (a b : Z) : option Z :=
  if b =? 0 then None else Some (Z.quot a b).

(** [a % b] *)
Definition py_mod (a b : Z) : option Z :=
  if b =? 0 then None else Some (Z.modulo a b).

Definition b2z (b : bool) : Z := if b then 1 else 0.

(** [while cond: body]; running out of [fuel] stands for divergence. *)
Fixpoint py_while {St} (fuel : nat) (cond : St -> option bool) (body : St -> option St)
    (s : St) : option St :=
  match fuel with
  | O => None
  | S fuel' => c <- cond s;; if c then s' <- body s;; py_while fuel' cond body s' else Some s
  end.

Fixpoint mapM {A B} (f : A -> option B) (l : list A) : option (list B) :=
  match l with
  | [] => Some []
  | x :: r => y <- f x;; ys <- mapM f r;; Some (y :: ys)
  end.

Fixpoint foldM {A S} (f : S -> A -> option S) (l : list A) (s : S) : option S :=
  match l with
  | [] => Some s
  | x :: r => s' <- f s x;; foldM f r s'
  end.

(** ** The alphabet: one-character strings over [{$, A, C, G, N, T}] *)

Inductive sym := Dollar | A | C | G | N | T.

(** Code points order the characters: ['$' < 'A' < 'C' < 'G' < 'N' < 'T']. *)
Definition sym_ord (x : sym) : Z :=
  match x with Dollar => 36 | A => 65 | C => 67 | G => 71 | N => 78 | T => 84 end.

Definition sym_eqb (x y : sym) : bool := sym_ord x =? sym_ord y.

(** Python's string comparison [x < y] on strings over the alphabet. *)
Fixpoint str_lt (x y : list sym) : bool :=
  match x, y with
  | [], [] => false
  | [], _ :: _ => true
  | _ :: _, [] => false
  | a :: x', b :: y' => (sym_ord a <? sym_ord b) || (sym_eqb a b && str_lt x' y')
  end.

Definition str_eqb (x y : list sym) : bool :=
  (length x =? length y)%nat && forallb (fun p => sym_eqb (fst p) (snd p)) (combine x y).

(** [text[i:]] *)
Definition suffix (t : list sym) (i : Z) : list sym := skipn (Z.to_nat i) t.

(** ** [BurrowsWheeler.suffix_array_simple] *)

(** Tuple comparison [(s1, i1) < (s2, i2)]. *)
Definition pair_lt (x y : list sym * Z) : bool :=
  str_lt (fst x) (fst y) || (str_eqb (fst x) (fst y) && (snd x <? snd y)).

(** [sorted] is a stable sort; insertion that keeps an element after the
    elements it is not smaller than is one. *)
Fixpoint insert_sorted (x : list sym * Z) (l : list (list sym * Z)) :=
  match l with
  | [] => [x]
  | y :: r => if pair_lt x y then x :: y :: r else y :: insert_sorted x r
  end.

Definition py_sorted (l : list (list sym * Z)) : list (list sym * Z) :=
  fold_left (fun acc x => insert_sorted x acc) l [].

Definition suffix_array_simple (reference_genome : list sym) : list Z :=
  let n := Zlen reference_genome in
  let suffix_array := py_sorted (map (fun i => (suffix reference_genome i, i)) (range 0 n)) in
  map snd suffix_array.

(** ** [BurrowsWheeler.suffix_array_manbermyers] *)
Module ManberMyers.

(** Position of a character among the keys of the dict
    [{'$': 0, 'A': 0, 'C': 0, 'G': 0, 'N': 0, 'T': 0}]. *)
Definition key_idx (x : sym) : Z :=
  match x with Dollar => 0 | A => 1 | C => 2 | G => 3 | N => 4 | T => 5 end.

Definition sort_chars (reference_genome : list sym) : option (list Z) :=
  let n := Zlen reference_genome in
  let order := py_repeat 0 n in
  let count := [0; 0; 0; 0; 0; 0] in
  count <- foldM (fun count i =>
      ch <- py_get reference_genome i;;
      v <- py_get count (key_idx ch);; py_set count (key_idx ch) (v + 1))
    (range 0 n) count;;
  (* [for (i, j) in enumerate(count): if j == '$': continue; ...] *)
  count <- foldM (fun count i =>
      if i =? 0 then Some count
      else v <- py_get count i;; w <- py_get count (i - 1);; py_set count i (v + w))
    (range 0 6) count;;
  '(_, order) <- foldM (fun '(count, order) i =>
      ch <- py_get reference_genome i;;
      v <- py_get count (key_idx ch);;
      count <- py_set count (key_idx ch) (v - 1);;
      order <- py_set order (v - 1) i;;
      Some (count, order))
    (range_down (n - 1) (-1)) (count, order);;
  Some order.

Definition compute_classes (reference_genome : list sym) (order : list Z) : option (list Z) :=
  let n := Zlen reference_genome in
  let classes := py_repeat 0 n in
  o0 <- py_get order 0;;
  classes <- py_set classes o0 0;;
  foldM (fun classes i =>
      oi <- py_get order i;; op <- py_get order (i - 1);;
      ci <- py_get reference_genome oi;; cp <- py_get reference_genome op;;
      v <- py_get classes op;;
      if negb (sym_eqb ci cp) then py_set classes oi (v + 1) else py_set classes oi v)
    (range 1 n) classes.

Definition sort_doubled (reference_genome : list sym) (step : Z) (order classes : list Z)
    : option (list Z) :=
  let n := Zlen reference_genome in
  let count := py_repeat 0 n in
  let new_order := py_repeat 0 n in
  count <- foldM (fun count i =>
      ci <- py_get classes i;; v <- py_get count ci;; py_set count ci (v + 1))
    (range 0 n) count;;
  count <- foldM (fun count j =>
      v <- py_get count j;; w <- py_get count (j - 1);; py_set count j (v + w))
    (range 1 n) count;;
  '(_, new_order) <- foldM (fun '(count, new_order) i =>
      oi <- py_get order i;;
      start <- py_mod (oi - step + n) n;;
      cl <- py_get classes start;;
      v <- py_get count cl;;
      count <- py_set count cl (v - 1);;
      new_order <- py_set new_order (v - 1) start;;
      Some (count, new_order))
    (range_down (n - 1) (-1)) (count, new_order);;
  Some new_order.

Definition updated_classes (order classes : list Z) (step : Z) : option (list Z) :=
  let n := Zlen order in
  let new_classes := py_repeat 0 n in
  o0 <- py_get order 0;;
  new_classes <- py_set new_classes o0 0;;
  foldM (fun new_classes i =>
      cur <- py_get order i;; prev <- py_get order (i - 1);;
      let mid := cur + step in
      mid_prev <- py_mod (prev + step) n;;
      (* [or] short-circuits: [classes[mid]] is only read when the first
         comparison is false *)
      differ <- (a <- py_get classes cur;; b <- py_get classes prev;;
                 if negb (a =? b) then Some true
                 else c <- py_get classes mid;; d <- py_get classes mid_prev;;
                      Some (negb (c =? d)));;
      v <- py_get new_classes prev;;
      if differ then py_set new_classes cur (v + 1) else py_set new_classes cur v)
    (range 1 n) new_classes.

Definition suffix_array_manbermyers (reference_genome : list sym) : option (list Z) :=
  order <- sort_chars reference_genome;;
  classes <- compute_classes reference_genome order;;
  let n := Zlen reference_genome in
  '(order, _, _) <- py_while (S (Z.to_nat n))
     (fun '(_, _, step) => Some (step <? n))
     (fun '(order, classes, step) =>
        order <- sort_doubled reference_genome step order classes;;
        classes <- updated_classes order classes step;;
        Some (order, classes, step * 2))
     (order, classes, 1);;
  Some order.

End ManberMyers.

(** ** [BurrowsWheeler.suffix_array_kaerkkaeinensanders] (DC3) *)
Module KaerkkaeinenSanders.

Definition to_int (s : list sym) : list Z :=
  map (fun ch => match ch with Dollar => 1 | A => 2 | C => 3 | G => 4 | N => 5 | T => 6 end) s.

Definition leq2 (a1 a2 b1 b2 : Z) : bool := (a1 <? b1) || ((a1 =? b1) && (a2 <=? b2)).

Definition leq3 (a1 a2 a3 b1 b2 b3 : Z) : bool :=
  (a1 <? b1) || ((a1 =? b1) && leq2 a2 a3 b2 b3).

Definition radix_pass (a r : list Z) (len_a len_k : Z) : option (list Z) :=
  let c := py_repeat 0 (len_k + 1) in
  let b := py_repeat 0 len_a in
  c <- foldM (fun c i =>
      ai <- py_get a i;; ri <- py_get r ai;; v <- py_get c ri;; py_set c ri (v + 1))
    (range 0 len_a) c;;
  '(c, _) <- foldM (fun '(c, sum) i =>
      t <- py_get c i;; c <- py_set c i sum;; Some (c, sum + t))
    (range 0 (len_k + 1)) (c, 0);;
  '(_, b) <- foldM (fun '(c, b) i =>
      ai <- py_get a i;; ri <- py_get r ai;; v <- py_get c ri;;
      b <- py_set b v ai;;
      c <- py_set c ri (v + 1);;
      Some (c, b))
    (range 0 len_a) (c, b);;
  Some b.

(** [sa12[t] * 3 + 1 if sa12[t] < n0 else (sa12[t] - n0) * 3 + 2] *)
Definition get_i (sa12 : list Z) (t n0 : Z) : option Z :=
  v <- py_get sa12 t;; Some (if v <? n0 then v * 3 + 1 else (v - n0) * 3 + 2).

(** The merge of the two classes: the [while k < n] loop and its two
    draining inner loops. *)
Definition merge (s s12 sa12 sa0 : list Z) (n n0 n02 : Z) (sa : list Z) (p t : Z)
    : option (list Z) :=
  '(sa, _, _, _) <- py_while (S (Z.to_nat n))
    (fun '(_, _, _, k) => Some (k <? n))
    (fun '(sa, p, t, k) =>
       i <- get_i sa12 t n0;;
       j <- py_get sa0 p;;
       x <- py_get sa12 t;;
       q <- py_int_div j 3;;
       le <- (if x <? n0 then
                a1 <- py_get s i;; a2 <- py_get s12 (x + n0);;
                b1 <- py_get s j;; b2 <- py_get s12 q;;
                Some (leq2 a1 a2 b1 b2)
              else
                a1 <- py_get s i;; a2 <- py_get s (i + 1);; a3 <- py_get s12 (x - n0 + 1);;
                b1 <- py_get s j;; b2 <- py_get s (j + 1);; b3 <- py_get s12 (q + n0);;
                Some (leq3 a1 a2 a3 b1 b2 b3));;
       '(sa, p, t, k) <-
         (if le then
            sa <- py_set sa k i;;
            let t := t + 1 in
            if t =? n02 then
              '(sa, p, k) <- py_while (S (Z.to_nat n))
                 (fun '(_, p, _) => Some (p <? n0))
                 (fun '(sa, p, k) => v <- py_get sa0 p;; sa <- py_set sa k v;; Some (sa, p + 1, k + 1))
                 (sa, p, k + 1);;
              Some (sa, p, t, k)
            else Some (sa, p, t, k)
          else
            sa <- py_set sa k j;;
            let p := p + 1 in
            if p =? n0 then
              '(sa, t, k) <- py_while (S (Z.to_nat n))
                 (fun '(_, t, _) => Some (t <? n02))
                 (fun '(sa, t, k) => v <- get_i sa12 t n0;; sa <- py_set sa k v;; Some (sa, t + 1, k + 1))
                 (sa, t, k + 1);;
              Some (sa, p, t, k)
            else Some (sa, p, t, k));;
       Some (sa, p, t, k + 1))
    (sa, p, t, 0);;
  Some sa.

(** One level of the recursion, on an integer string [s] that carries three
    trailing zeros.  [fuel] bounds the recursion depth. *)
Fixpoint sa_rec (fuel : nat) (s : list Z) (n k : Z) : option (list Z) :=
  match fuel with
  | O => None
  | S fuel' =>
  let sa := py_repeat 0 n in
  n0 <- py_int_div (n + 2) 3;;
  n1 <- py_int_div (n + 1) 3;;
  n2 <- py_int_div n 3;;
  let n02 := n0 + n2 in
  let s12 := py_repeat 0 (n02 + 3) in
  let s0 := py_repeat 0 n0 in
  '(s12, _) <- foldM (fun '(s12, j) i =>
      if negb (i mod 3 =? 0) then s12 <- py_set s12 j i;; Some (s12, j + 1)
      else Some (s12, j))
    (range 0 (n + n0 - n1)) (s12, 0);;
  sa12 <- radix_pass s12 (skipn 2 s) n02 k;; let sa12 := sa12 ++ [0; 0; 0] in
  s12 <- radix_pass sa12 (skipn 1 s) n02 k;; let s12 := s12 ++ [0; 0; 0] in
  sa12 <- radix_pass s12 s n02 k;; let sa12 := sa12 ++ [0; 0; 0] in
  '(s12, name, _, _, _) <- foldM (fun '(s12, name, c0, c1, c2) i =>
      x <- py_get sa12 i;;
      differ <- (v0 <- py_get s x;;
                 if negb (v0 =? c0) then Some true
                 else v1 <- py_get s (x + 1);;
                      if negb (v1 =? c1) then Some true
                      else v2 <- py_get s (x + 2);; Some (negb (v2 =? c2)));;
      '(name, c0, c1, c2) <-
        (if differ then
           v0 <- py_get s x;; v1 <- py_get s (x + 1);; v2 <- py_get s (x + 2);;
           Some (name + 1, v0, v1, v2)
         else Some (name, c0, c1, c2));;
      q <- py_int_div x 3;;
      s12 <- (if x mod 3 =? 1 then py_set s12 q name else py_set s12 (q + n0) name);;
      Some (s12, name, c0, c1, c2))
    (range 0 n02) (s12, 0, -1, -1, -1);;
  '(sa12, s12) <-
    (if name <? n02 then
       sa12 <- sa_rec fuel' s12 n02 name;;
       s12 <- foldM (fun s12 i => v <- py_get sa12 i;; py_set s12 v (i + 1)) (range 0 n02) s12;;
       Some (sa12, s12)
     else
       sa12 <- foldM (fun sa12 i => v <- py_get s12 i;; py_set sa12 (v - 1) i) (range 0 n02) sa12;;
       Some (sa12, s12));;
  '(s0, _) <- foldM (fun '(s0, j) i =>
      v <- py_get sa12 i;;
      if v <? n0 then s0 <- py_set s0 j (3 * v);; Some (s0, j + 1) else Some (s0, j))
    (range 0 n02) (s0, 0);;
  sa0 <- radix_pass s0 s n0 k;;
  merge s s12 sa12 sa0 n n0 n02 sa 0 (n0 - n1)
  end.

(** The entry point: a string argument is converted to integers and padded
    with three zeros ([type(s[0]) is not int]). *)
Definition suffix_array_kaerkkaeinensanders (reference_genome : list sym) (n k : Z)
    : option (list Z) :=
  match reference_genome with
  | [] => None
  | _ => sa_rec (S (Z.to_nat n)) (to_int reference_genome ++ [0; 0; 0]) n k
  end.

End KaerkkaeinenSanders.


(** ** The index: [BurrowsWheeler.__init__] and its helpers *)

Inductive strategy := StrategyKaerkkaeinenSanders | StrategyManberMyers | StrategySimple.

(** The attributes of a [BurrowsWheeler] object.  [bitvector] and [bucket]
    are [None] when [compression_sa == 1]; [tally] has no entry for ['$']. *)
Record bw := mkBW {
  compression_occ : Z;
  compression_sa : Z;
  bucket_step : Z;
  sa : list Z;
  bitvector : option (list Z);
  bucket : option (list Z);
  code : list sym;
  f : sym -> Z;
  tally : sym -> option (list Z);
  index_s : Z
}.

Definition get_bwt (reference_genome : list sym) (suffix_array : list Z) : option (list sym) :=
  match suffix_array with
  | [] => None (* [suffix_array or self.sa]: [self.sa] is not set yet *)
  | _ => mapM (fun w => if w =? 0 then Some Dollar else py_get reference_genome (w - 1))
           suffix_array
  end.

Definition _shifts_f (reference_genome : list sym) : sym -> Z :=
  let shifts := fold_left (fun shifts ch => fun x => if sym_eqb x ch then shifts x + 1 else shifts x)
                  reference_genome (fun _ => 0) in
  let count_a := shifts Dollar in
  let count_c := count_a + shifts A in
  let count_g := count_c + shifts C in
  let count_n := count_g + shifts G in
  let count_t := count_n + shifts N in
  fun x => match x with
           | Dollar => 0 | A => count_a | C => count_c | G => count_g | N => count_n | T => count_t
           end.

(** One iteration of the loop of [_build_tally] over
    [enumerate(bw_transform[1:], start=1)]: the five counters
    [count_a .. count_t] and the five lists [a .. t] are kept as functions of
    the symbol. *)
Definition tally_step (compression_occ : Z)
    (st : Z * (sym -> Z) * (sym -> list Z)) (it : Z * sym)
    : option (Z * (sym -> Z) * (sym -> list Z)) :=
  let '(index_s, counts, lists) := st in
  let '(count, item) := it in
  let index_s := index_s + b2z (sym_eqb item Dollar) * count in
  let counts := fun ch => counts ch + b2z (sym_eqb item ch) in
  m <- py_mod count compression_occ;;
  let lists := if m =? 0 then fun ch => lists ch ++ [counts ch] else lists in
  Some (index_s, counts, lists).

Definition _build_tally (compression_occ : Z) (bw_transform : list sym)
    : option ((sym -> option (list Z)) * Z) :=
  x0 <- py_get bw_transform 0;;
  let index_s := b2z (sym_eqb x0 Dollar) in
  let counts := fun ch => b2z (sym_eqb x0 ch) in
  let lists := fun ch => [counts ch] in
  '(index_s, _, lists) <- foldM (tally_step compression_occ)
    (combine (range 1 (Zlen bw_transform)) (skipn 1 bw_transform)) (index_s, counts, lists);;
  Some ((fun ch => if sym_eqb ch Dollar then None else Some (lists ch)), index_s).

(** One iteration of the loop of [suffix_array] over
    [enumerate(suffix_array)]. *)
Definition compress_step (compression bucket_step : Z)
    (st : list Z * list Z * list Z * Z) (it : Z * Z) : option (list Z * list Z * list Z * Z) :=
  let '(sc, bits, bucket, rank) := st in
  let '(index, num) := it in
  m <- py_mod num compression;;
  let '(sc, bits, rank) :=
    if m =? 0 then (sc ++ [num], bits ++ [1], rank + 1) else (sc, bits ++ [0], rank) in
  bucket <- (if 0 <? index then
               mb <- py_mod index bucket_step;;
               Some (if mb =? 0 then bucket ++ [rank] else bucket)
             else Some bucket);;
  Some (sc, bits, bucket, rank).

(** The part of [suffix_array] after the builder: compression of the suffix
    array, the bit-vector and the bucket table. *)
Definition compress_sa (self_compression_sa bucket_step : Z) (suffix_array : list Z)
    (compression : Z) : option (list Z * option (list Z) * option (list Z)) :=
  if self_compression_sa =? 1 then Some (suffix_array, None, None)
  else
    s0 <- py_get suffix_array 0;;
    m0 <- py_mod s0 compression;;
    '(suffix_compressed, bits, bucket, _) <- foldM (compress_step compression bucket_step)
      (combine (range 0 (Zlen suffix_array)) suffix_array) ([], [], [b2z (m0 =? 0)], 0);;
    Some (suffix_compressed, Some bits, Some bucket).

Definition run_strategy (reference_genome : list sym) (strategy : strategy) : option (list Z) :=
  match strategy with
  | StrategySimple => Some (suffix_array_simple reference_genome)
  | StrategyManberMyers => ManberMyers.suffix_array_manbermyers reference_genome
  | StrategyKaerkkaeinenSanders =>
      KaerkkaeinenSanders.suffix_array_kaerkkaeinensanders reference_genome
        (Zlen reference_genome) 6
  end.

(** [int(np.log2(len))]: the floor of the binary logarithm (the floating
    point computation gives the same value on the lengths considered here). *)
Definition bucket_step_of (reference_genome : list sym) : Z := Z.log2 (Zlen reference_genome).

(** The rest of [__init__] once the builder has returned [full]. *)
Definition init_from_sa (reference_genome : list sym) (full : list Z)
    (compression_occ compression_sa : Z) : option bw :=
  let bucket_step := bucket_step_of reference_genome in
  code <- get_bwt reference_genome full;;
  '(sa, bv, bk) <- compress_sa compression_sa bucket_step full compression_sa;;
  let f := _shifts_f reference_genome in
  '(tally, index_s) <- _build_tally compression_occ code;;
  Some (mkBW compression_occ compression_sa bucket_step sa bv bk code f tally index_s).

Definition ends_with_dollar (g : list sym) : bool :=
  match rev g with Dollar :: _ => true | _ => false end.

(** [if reference_genome[-1] != '$': reference_genome += '$'] *)
Definition with_sentinel (g : list sym) : list sym :=
  if ends_with_dollar g then g else g ++ [Dollar].

(** [BurrowsWheeler(reference_genome, strategy, compression_occ, compression_sa)] *)
Definition init (reference_genome : list sym) (strategy : strategy)
    (compression_occ compression_sa : Z) : option bw :=
  if Zlen reference_genome <? 1 then None
  else if (compression_occ <? 1) || (compression_sa <? 1) then None
  else
    let reference_genome := with_sentinel reference_genome in
    full <- run_strategy reference_genome strategy;;
    init_from_sa reference_genome full compression_occ compression_sa.

(** ** Queries *)

Definition rank_bit (self : bw) (index : Z) : option Z :=
  if compression_sa self =? 0 then Some (index + 1)
  else
    bucket_index <- py_int_div index (bucket_step self);;
    rank <- foldM (fun rank i => bv <- bitvector self;; x <- py_get bv i;; Some (rank + x))
              (range (bucket_index * bucket_step self + 1) (index + 1)) 0;;
    bk <- bucket self;;
    v <- py_get bk bucket_index;;
    Some (v + rank).

(** [half_compression = compression_occ * 0.5]: [r < half_compression] is
    [2 * r < compression_occ]; [int(index / occ + 1)] is [int((index + occ) / occ)]. *)
Definition rank (self : bw) (ch : sym) (index : Z) : option Z :=
  let occ := compression_occ self in
  let n := Zlen (code self) - 1 in
  if sym_eqb ch Dollar then Some (b2z (index_s self <=? index))
  else
    r <- py_mod index occ;;
    if r =? 0 then
      tl <- tally self ch;; q <- py_int_div index occ;; py_get tl q
    else
      lim <- py_int_div n occ;;
      if (2 * r <? occ) || (lim * occ <? index) then
        count <- foldM (fun count up =>
                   x <- py_get (code self) up;; Some (count + b2z (sym_eqb x ch)))
                 (range_down index (index - r)) 0;;
        tl <- tally self ch;; q <- py_int_div index occ;; v <- py_get tl q;;
        Some (v + count)
      else
        count <- foldM (fun count down =>
                   x <- py_get (code self) down;; Some (count + b2z (sym_eqb x ch)))
                 (range (index + 1) (index + (occ - r) + 1)) 0;;
        tl <- tally self ch;; q <- py_int_div (index + occ) occ;; v <- py_get tl q;;
        Some (v - count).

(** One LF step: [rank(c, row) + f[c] - 1] and the character at the new row. *)
Definition lf_step (self : bw) (next_char : sym) (next_row : Z) : option (sym * Z) :=
  r <- rank self next_char next_row;;
  let next_row := r + f self next_char - 1 in
  next_char <- py_get (code self) next_row;;
  Some (next_char, next_row).

Definition get_sa (self : bw) (index : Z) : option Z :=
  if compression_sa self =? 1 then py_get (sa self) index
  else
    bv <- bitvector self;;
    bit <- py_get bv index;;
    if bit =? 1 then rb <- rank_bit self index;; py_get (sa self) (rb - 1)
    else
      next_char <- py_get (code self) index;;
      '(_, next_row, counter) <- py_while (S (length (code self)))
         (fun '(_, next_row, _) => b <- py_get bv next_row;; Some (negb (b =? 1)))
         (fun '(next_char, next_row, counter) =>
            '(next_char, next_row) <- lf_step self next_char next_row;;
            Some (next_char, next_row, counter + 1))
         (next_char, index, 0);;
      rb <- rank_bit self next_row;;
      v <- py_get (sa self) (rb - 1);;
      Some (v + counter).

(** [__str__] *)
Definition to_string (self : bw) : option (list sym) :=
  let n := Zlen (code self) - 1 in
  next_char <- py_get (code self) 0;;
  '(_, _, original) <- foldM (fun '(next_char, next_row, original) _ =>
      '(next_char, next_row) <- lf_step self next_char next_row;;
      Some (next_char, next_row, next_char :: original))
    (range 0 (n - 1)) (next_char, 0, [next_char]);;
  Some original.

(** ** [AllTheKingsHorses]: orientation, pairing and streaming *)
Module ATKH.

(** Modelled from the spec: [aligner03.io.Read] (not in src) — bases,
    Phred qualities, a name and an orientation flag; [reversed] is the
    reverse-complement view, with the orientation flag flipped. *)
Record Read := mkRead {
  read_name : String.string;
  read_seq : list sym;
  read_phred : list Z;
  is_forward : bool
}.

Definition complement (x : sym) : sym :=
  match x with A => T | T => A | C => G | G => C | N => N | Dollar => Dollar end.

Definition reversed (r : Read) : Read :=
  mkRead (read_name r) (rev (map complement (read_seq r))) (rev (read_phred r))
         (negb (is_forward r)).

Fixpoint list_eqb {X} (eqb : X -> X -> bool) (l1 l2 : list X) : bool :=
  match l1, l2 with
  | [], [] => true
  | x :: r1, y :: r2 => eqb x y && list_eqb eqb r1 r2
  | _, _ => false
  end.

(** Equality of [Read] keys in a dict. *)
Definition read_eqb (r1 r2 : Read) : bool :=
  String.eqb (read_name r1) (read_name r2) && list_eqb sym_eqb (read_seq r1) (read_seq r2)
  && list_eqb Z.eqb (read_phred r1) (read_phred r2) && Bool.eqb (is_forward r1) (is_forward r2).

(** Modelled from the spec: [aligner03.io.AlignedSegment] (not in src);
    [pnext] is unset ([None]) until the mate is placed. *)
Record AlignedSegment {Cigar : Type} := mkSeg {
  qname : String.string;
  is_minus_strand : bool;
  is_secondary_alignment : bool;
  cigar : Cigar;
  pos : Z;
  seq : list sym;
  qual : list Z;
  pnext : option Z
}.
Arguments AlignedSegment : clear implicits.

Inductive exn := UnmappedReadpair | KeyError | IndexError | RuntimeError.

(** Result of running a generator to its end: everything it yields, or the
    exception it raises (the generators here raise before their first yield). *)
Inductive outcome (X : Type) := Ok (x : X) | Raise (e : exn).
Arguments Ok {X} x.
Arguments Raise {X} e.

(** A proposal [(loc_in_read, None, qual, loc_in_ref)]. *)
Definition proposal : Type := Z * unit * list Z * Z.

(** [max(iterable, key=...)]: the first element with the largest key. *)
Definition py_max_by {X} (key : X -> Z) (l : list X) : option X :=
  match l with
  | [] => None
  | x :: r => Some (fold_left (fun best y => if key best <? key y then y else best) r x)
  end.

Fixpoint insert_Z (x : Z) (l : list Z) : list Z :=
  match l with [] => [x] | y :: r => if x <=? y then x :: y :: r else y :: insert_Z x r end.

(** [round] half to even, on [k / 2]. *)
Definition round_half (k : Z) : Z :=
  if Z.even k then k / 2 else let q := k / 2 in if Z.even q then q else q + 1.

(** [numpy.percentile(l, 50, interpolation='nearest')] *)
Definition percentile50_nearest (l : list Z) : option Z :=
  let sorted := fold_right insert_Z [] l in
  py_get sorted (round_half (Zlen l - 1)).

Section Mapper.
(** The collaborators of the mapper: seed extraction ([random_kmers]), the
    genome index ([query]), the window proposal and the aligner, which are
    imported from modules not in src, and the reference string. *)
Variable random_kmers : Read -> list (Z * list sym * list Z).
Variable query : list sym -> list Z.
Variable propose_window : Z -> Z -> Z -> Z -> Z * Z.
Variable Alignment Cigar : Type.
Variable loc_in_ref : Alignment -> Z.
Variable alignment_cigar : Alignment -> Cigar.
Variable align : list sym -> list sym -> list Alignment.
Variable ref_genome : list sym.

Definition proposals_of (r : Read) : list proposal :=
  flat_map (fun '(loc_in_read, kmer, qual) =>
              map (fun loc_in_ref => (loc_in_read, tt, qual, loc_in_ref)) (query kmer))
    (random_kmers r).

(** [map_one]: the items of the returned dict, in insertion order. *)
Definition map_one (read : Read) (decide : bool) : list (Read * list proposal) :=
  let proposals := [(read, proposals_of read); (reversed read, proposals_of (reversed read))] in
  if decide then
    match py_max_by (fun p => Zlen (snd p)) proposals with Some p => [p] | None => [] end
  else proposals.

Definition select_option (options : list proposal) : option proposal :=
  let in_ref := map (fun '(_, _, _, j) => j) options in
  j <- percentile50_nearest in_ref;;
  py_max_by (fun '(_, _, _, x) => b2z (x =? j)) options.

(** [s[lo:hi]] *)
Definition py_slice {X} (l : list X) (lo hi : Z) : list X :=
  let norm i := if i <? 0 then Z.max 0 (Zlen l + i) else Z.min i (Zlen l) in
  skipn (Z.to_nat (norm lo)) (firstn (Z.to_nat (norm hi)) l).

Definition Segment := AlignedSegment Cigar.

(** The body of the [for (read, options) in ...] loop of [map_pair]. *)
Definition segment_of (read : Read) (options : list proposal) : outcome Segment :=
  let ref_length := Zlen ref_genome in
  match select_option options with
  | None => Raise IndexError
  | Some (i, _, _, j) =>
      let w := propose_window (Zlen (read_seq read)) i ref_length j in
      let w_segment := py_slice ref_genome (fst w) (snd w) in
      match align w_segment (read_seq read) with
      | [] => Raise RuntimeError (* [first] raises StopIteration inside a generator *)
      | alignment :: _ =>
          let loc := loc_in_ref alignment + fst w in
          Ok (mkSeg Cigar (read_name read) (negb (is_forward read)) false
                (alignment_cigar alignment) (loc + 1) (read_seq read) (read_phred read) None)
      end
  end.

(** The dict [read2seg]. *)
Fixpoint dict_set {V} (d : list (Read * V)) (k : Read) (v : V) : list (Read * V) :=
  match d with
  | [] => [(k, v)]
  | (k', v') :: r => if read_eqb k k' then (k', v) :: r else (k', v') :: dict_set r k v
  end.

Fixpoint dict_get {V} (d : list (Read * V)) (k : Read) : option V :=
  match d with
  | [] => None
  | (k', v') :: r => if read_eqb k k' then Some v' else dict_get r k
  end.

Definition set_pnext (s : Segment) (p : Z) : Segment :=
  mkSeg Cigar (qname s) (is_minus_strand s) (is_secondary_alignment s) (cigar s) (pos s)
    (seq s) (qual s) (Some p).

Definition map_pair (read1 read2 : Read) : outcome (list Segment) :=
  match map_one read1 true, map_one read2 true with
  | [(read1, options1)], [(read2, options2)] =>
      if Bool.eqb (is_forward read1) (is_forward read2) then Raise UnmappedReadpair
      else if (match options1 with [] => true | _ => false end)
              || (match options2 with [] => true | _ => false end)
      then Raise UnmappedReadpair
      else
        match segment_of read1 options1 with
        | Raise e => Raise e
        | Ok seg1 =>
        let read2seg := dict_set [] read1 seg1 in
        match segment_of read2 options2 with
        | Raise e => Raise e
        | Ok seg2 =>
        let read2seg := dict_set read2seg read2 seg2 in
        (* [read2seg[read1].pnext = read2seg[read2].pos] and back *)
        match dict_get read2seg read1, dict_get read2seg read2 with
        | Some s1, Some s2 =>
          let read2seg := dict_set read2seg read1 (set_pnext s1 (pos s2)) in
          match dict_get read2seg read2, dict_get read2seg read1 with
          | Some s2, Some s1 =>
            let read2seg := dict_set read2seg read2 (set_pnext s2 (pos s1)) in
            match dict_get read2seg read1, dict_get read2seg read2 with
            | Some s1, Some s2 => Ok [s1; s2]
            | _, _ => Raise KeyError
            end
          | _, _ => Raise KeyError
          end
        | _, _ => Raise KeyError
        end
        end
        end
  | _, _ => Raise KeyError (* [popitem] on an empty dict *)
  end.

(** [map_paired] over the zipped read streams: everything yielded, the
    final value of [unmapped_pairs], and the exception that escapes, if any. *)
Fixpoint map_paired_loop (pairs : list (Read * Read)) (unmapped_pairs : Z) (out : list Segment)
    : list Segment * Z * option exn :=
  match pairs with
  | [] => (out, unmapped_pairs, None)
  | (read1, read2) :: rest =>
      match map_pair read1 read2 with
      | Ok segs => map_paired_loop rest unmapped_pairs (out ++ segs)
      | Raise UnmappedReadpair => map_paired_loop rest (unmapped_pairs + 1) out
      | Raise e => (out, unmapped_pairs, Some e)
      end
  end.

Definition map_paired (pairs : list (Read * Read)) : list Segment * Z * option exn :=
  map_paired_loop pairs 0 [].

End Mapper.
End ATKH.

(** ** Local alignment *)
Module SmithWaterman.

(** Modelled from the spec: [aligner03.align.SmithWaterman] (not in src),
    as section 4.3 describes it: an [(|ref|+1) x (|query|+1)] matrix, rows
    indexed by the reference, local mode clamping at zero; the traceback
    follows the best predecessor of each cell, diagonal before up before
    left, until it reaches a cell of score zero. *)
Record costs := mkCosts { c_match : Z; c_mismatch : Z; c_insertion : Z; c_deletion : Z }.

Definition score (k : costs) (x y : sym) : Z := if sym_eqb x y then c_match k else c_mismatch k.

(** The cells [1..|query|] of one row, from the row above ([diag] and [up])
    and the cell to the left. *)
Fixpoint row_from (k : costs) (x : sym) (query : list sym) (prev : list Z) (diag left : Z)
    : list Z :=
  match query, prev with
  | y :: q, up :: prev' =>
      let v := Z.max 0 (Z.max (diag + score k x y)
                              (Z.max (up + c_deletion k) (left + c_insertion k))) in
      v :: row_from k x q prev' up v
  | _, _ => []
  end.

Definition scoring_matrix (k : costs) (ref query : list sym) : list (list Z) :=
  let row0 := repeat 0 (S (length query)) in
  rev (fold_left (fun rows x =>
         match rows with
         | prev :: _ => (0 :: row_from k x query (tl prev) (hd 0 prev) 0) :: rows
         | [] => []
         end) ref [row0]).

Definition cell (H : list (list Z)) (i j : nat) : Z := nth j (nth i H []) 0.

Definition matrix_max (H : list (list Z)) : Z := fold_left Z.max (concat H) 0.

(** The cells holding the maximum, in row-major order. *)
Definition max_cells (H : list (list Z)) : list (nat * nat) :=
  let m := matrix_max H in
  flat_map (fun i => map (fun j => (i, j)) (filter (fun j => cell H i j =? m) (seq 0 (length (nth i H [])))))
    (seq 0 (length H)).

(** The recorded predecessor of a cell of positive score. *)
Definition predecessor (k : costs) (ref query : list sym) (H : list (list Z)) (i j : nat)
    : option (nat * nat) :=
  let v := cell H i j in
  match i, j with
  | S i', S j' =>
      if cell H i' j' + score k (nth i' ref Dollar) (nth j' query Dollar) =? v then Some (i', j')
      else if cell H i' j + c_deletion k =? v then Some (i', j)
      else if cell H i j' + c_insertion k =? v then Some (i, j')
      else None
  | S i', O => if cell H i' j + c_deletion k =? v then Some (i', j) else None
  | O, S j' => if cell H i j' + c_insertion k =? v then Some (i, j') else None
  | O, O => None
  end.

(** Walk back from [(i, j)] to the first cell of score zero. *)
Fixpoint traceback (fuel : nat) (k : costs) (ref query : list sym) (H : list (list Z))
    (i j : nat) : option (nat * nat) :=
  if cell H i j =? 0 then Some (i, j)
  else match fuel with
       | O => None
       | S fuel' =>
           match predecessor k ref query H i j with
           | Some (i', j') => traceback fuel' k ref query H i' j'
           | None => None
           end
       end.

(** The 0-based half-open spans [(start, end)] in the reference and in the
    query of the local alignment ending at cell [(i, j)]. *)
Definition alignment_spans (k : costs) (ref query : list sym) (i j : nat)
    : option ((nat * nat) * (nat * nat)) :=
  let H := scoring_matrix k ref query in
  match traceback (length ref + length query) k ref query H i j with
  | Some (i0, j0) => Some ((i0, i), (j0, j))
  | None => None
  end.

(** The example of the spec (section 8): reference ["ATGGCCTC"], query
    ["ACGGCTC"], costs match +1, mismatch -1, insertion -2, deletion -2. *)
Definition example_ref : list sym := [A; T; G; G; C; C; T; C].
Definition example_query : list sym := [A; C; G; G; C; T; C].
Definition example_costs : costs := mkCosts 1 (-1) (-2) (-2).
Definition example_matrix : list (list Z) := scoring_matrix example_costs example_ref example_query.

End SmithWaterman.

(** ** Notions of the data model used in the statements *)

(** Occurrences of [c] in a string ([s.count(c)]). *)
Fixpoint count_sym (c : sym) (l : list sym) : Z :=
  match l with [] => 0 | x :: r => b2z (sym_eqb x c) + count_sym c r end.

(** A ReferenceText (spec section 3): a non-empty genome followed by its
    sentinel, which occurs exactly once. *)
Definition text_ok (t : list sym) : bool :=
  (2 <=? length t)%nat && ends_with_dollar t && (count_sym Dollar t =? 1).

(** A SuffixArray (spec section 3): a permutation of [[0, len(text))] along
    which the suffixes increase strictly. *)
Definition is_suffix_array (t : list sym) (sa : list Z) : bool :=
  (length sa =? length t)%nat
  && forallb (fun p => (0 <=? p) && (p <? Zlen t)) sa
  && forallb (fun i =>
       forallb (fun j => str_lt (suffix t (nth i sa 0)) (suffix t (nth j sa 0)))
         (seq (S i) (length t - S i)))
       (seq 0 (length t)).

(** The texts [g + '$'] for the genomes [g] of a given length. *)
Fixpoint genomes (len : nat) : list (list sym) :=
  match len with
  | O => [[]]
  | S l => flat_map (fun g => map (fun x => x :: g) [A; C; G; N; T]) (genomes l)
  end.

Definition list_Z_eqb (l1 l2 : list Z) : bool := ATKH.list_eqb Z.eqb l1 l2.

Definition builders_agree_on (t : list sym) : bool :=
  match run_strategy t StrategySimple, run_strategy t StrategyManberMyers,
        run_strategy t StrategyKaerkkaeinenSanders with
  | Some s, Some m, Some k => list_Z_eqb s m && list_Z_eqb s k && is_suffix_array t s
  | _, _, _ => false
  end.

(** The sample lists of the tally, as counts of inclusive prefixes. *)
Definition tally_samples (occ : Z) (cd : list sym) (ch : sym) (m : Z) : list Z :=
  map (fun k => count_sym ch (firstn (Z.to_nat (k * occ + 1)) cd)) (range 0 (m / occ + 1)).

(** The state of the loop of [__str__] after [k] steps over a text [t] with
    suffix array [full]: the row holds the suffix at [len - 1 - k], its BWT
    symbol is [next_char], and [original] is the text from [len - 2 - k]
    without the sentinel. *)
Definition walk_inv (t : list sym) (full : list Z) (k : nat) (st : sym * Z * list sym) : Prop :=
  match st with
  | (nc, nr, orig) => exists row, (row < length t)%nat
      /\ Z.to_nat (nth row full 0) = (length t - 1 - k)%nat
      /\ nc = (if Nat.eqb (Z.to_nat (nth row full 0)) 0 then Dollar
               else nth (Z.to_nat (nth row full 0) - 1) t Dollar)
      /\ nr = Z.of_nat row /\ orig = skipn (length t - 2 - k) (removelast t)
  end.

(** A small instance of the mapper's collaborators: one seed per read (the
    whole read), an index that finds ["AC"] at offset 5, a window that is the
    whole reference, and an aligner that aligns at offset 0. *)
Module ATKHExample.
Import ATKH.

Definition ex_kmers (r : Read) : list (Z * list sym * list Z) := [(0, read_seq r, read_phred r)].
Definition ex_query (kmer : list sym) : list Z := if list_eqb sym_eqb kmer [A; C] then [5] else [].
Definition ex_window (read_length read_loc ref_length ref_loc : Z) : Z * Z := (0, ref_length).
Definition ex_loc (a : Z) : Z := a.
Definition ex_cigar (a : Z) : unit := tt.
Definition ex_align (ref q : list sym) : list Z := [0].
Definition ex_ref : list sym := [A; C; G; T].
Definition ex_read (s : list sym) : Read := mkRead String.EmptyString s (map (fun _ => 30) s) true.

(** A pair on opposite strands, then a pair on the same strand. *)
Definition ex_pairs : list (Read * Read) :=
  [(ex_read [A; C], ex_read [G; T]); (ex_read [A; C], ex_read [A; C])].

End ATKHExample.

(** * Properties *)

(** ** Suffix-array builders *)

(** Supporting evidence for C1: on every text [g + '$'] with a genome [g] of
    length 1 to 4, the three builders return the same array, and it is the
    suffix array of the text. *)
Lemma builders_agree_small_texts :
  forallb (fun len => forallb (fun g => builders_agree_on (g ++ [Dollar])) (genomes len))
    [1; 2; 3; 4]%nat = true.
Proof. vm_compute. reflexivity. Qed.

(** C1 (code_bug): on the text ["$"] (the input ["$"], an empty genome with
    its sentinel), [suffix_array_simple] and [suffix_array_manbermyers]
    return [[0]] but [suffix_array_kaerkkaeinensanders] returns [[1]], which
    is not a permutation of [[0, 1)]. *)
Lemma builders_disagree_on_sentinel_text :
  run_strategy [Dollar] StrategySimple = Some [0]
  /\ run_strategy [Dollar] StrategyManberMyers = Some [0]
  /\ run_strategy [Dollar] StrategyKaerkkaeinenSanders = Some [1].
Proof. vm_compute. repeat split. Qed.

(** ** The index on the input ["$"] *)

(** C2 (code_bug): for the index built from ["$"] the BWT is ["$"], so the
    sentinel sits at row 0, but [_build_tally] sets [index_s] to 1
    ([int(bw_transform[0] == '$')] is a flag, not a position) and
    [rank('$', 0)] answers 0 instead of 1. *)
Lemma rank_sentinel_wrong_on_sentinel_text :
  forall st, exists b, init [Dollar] st 1 1 = Some b
    /\ code b = [Dollar] /\ index_s b = 1
    /\ rank b Dollar 0 = Some 0 /\ count_sym Dollar (firstn 1 (code b)) = 1.
Proof.
  intros st; destruct st; eexists; vm_compute; repeat split.
Qed.

(** C3 (code_bug): for ["$"] built with [Simple] and [compression_sa = 2],
    the suffix array is [[0]] but [get_sa(0)] fails: [bucket_step] is
    [int(log2(1)) = 0] and [rank_bit] divides by it.  With the default
    builder and compressions the LF walk never reaches a sampled row. *)
Lemma get_sa_fails_on_sentinel_text :
  run_strategy [Dollar] StrategySimple = Some [0]
  /\ (exists b, init [Dollar] StrategySimple 1 2 = Some b
       /\ bucket_step b = 0 /\ get_sa b 0 = None)
  /\ (exists b, init [Dollar] StrategyKaerkkaeinenSanders 32 32 = Some b
       /\ get_sa b 0 = None).
Proof. split; [vm_compute; reflexivity|]. split; eexists; vm_compute; repeat split. Qed.


(** C5 (counterexample): for ["A"] the BWT is ["A$"] and [tally['A'][0]]
    is 1, the count in [BWT[0:1]], not the count 0 in [BWT[0:0]]. *)
Lemma tally_sample_is_inclusive :
  exists b, init [A] StrategySimple 1 1 = Some b
    /\ code b = [A; Dollar] /\ tally b A = Some [1; 1]
    /\ count_sym A (firstn 0 (code b)) = 0.
Proof. eexists; vm_compute; repeat split. Qed.

(** ** Lemmas on the Python helpers *)

Lemma py_get_in {X} (l : list X) (i : Z) (d : X) :
  0 <= i < Zlen l -> py_get l i = Some (nth (Z.to_nat i) l d).
Proof.
  intros [H0 H1]. unfold py_get, Zlen in *.
  replace (0 <=? i) with true by (symmetry; apply Z.leb_le; lia).
  apply nth_error_nth'. lia.
Qed.

Lemma range_nil lo hi : hi <= lo -> range lo hi = [].
Proof. intros H. unfold range. replace (Z.to_nat (hi - lo)) with O by lia. reflexivity. Qed.

Lemma range_cons lo hi : lo < hi -> range lo hi = lo :: range (lo + 1) hi.
Proof.
  intros H. unfold range.
  replace (Z.to_nat (hi - lo)) with (S (Z.to_nat (hi - (lo + 1)))) by lia.
  simpl. f_equal; [lia|].
  rewrite <- seq_shift, map_map. apply map_ext. intros k. lia.
Qed.

Lemma range_snoc lo hi : lo <= hi -> range lo (hi + 1) = range lo hi ++ [hi].
Proof.
  intros H. unfold range.
  replace (Z.to_nat (hi + 1 - lo)) with (S (Z.to_nat (hi - lo))) by lia.
  rewrite seq_S, map_app. simpl. f_equal. f_equal. f_equal. lia.
Qed.

Lemma range_down_cons hi lo : lo < hi -> range_down hi lo = hi :: range_down (hi - 1) lo.
Proof.
  intros H. unfold range_down.
  replace (Z.to_nat (hi - lo)) with (S (Z.to_nat (hi - 1 - lo))) by lia.
  simpl. f_equal; [lia|].
  rewrite <- seq_shift, map_map. apply map_ext. intros k. lia.
Qed.

Lemma range_down_nil hi lo : hi <= lo -> range_down hi lo = [].
Proof. intros H. unfold range_down. replace (Z.to_nat (hi - lo)) with O by lia. reflexivity. Qed.

Lemma foldM_app {X St} (g : St -> X -> option St) l1 l2 s :
  foldM g (l1 ++ l2) s = (s' <- foldM g l1 s;; foldM g l2 s').
Proof.
  revert s. induction l1 as [|x l1 IH]; intros s; simpl; [reflexivity|].
  destruct (g s x); simpl; [apply IH | reflexivity].
Qed.

Lemma foldM_inv {X St} (P : St -> Prop) (g : St -> X -> option St) l s s' :
  (forall s0 x s1, In x l -> P s0 -> g s0 x = Some s1 -> P s1) ->
  P s -> foldM g l s = Some s' -> P s'.
Proof.
  revert s. induction l as [|x l IH]; intros s Hg Hs Hf; simpl in Hf.
  - congruence.
  - destruct (g s x) as [s1|] eqn:E; simpl in Hf; [|discriminate].
    apply (IH s1); auto.
    + intros; eapply Hg; eauto; right; auto.
    + eapply Hg; eauto; left; auto.
Qed.

Lemma py_while_inv {St} (P : St -> Prop) fuel cond body (s s' : St) :
  (forall s0 s1, P s0 -> cond s0 = Some true -> body s0 = Some s1 -> P s1) ->
  P s -> py_while fuel cond body s = Some s' -> P s'.
Proof.
  revert s. induction fuel as [|fuel IH]; intros s Hb Hs Hw; simpl in Hw; [discriminate|].
  destruct (cond s) as [[]|] eqn:Ec; simpl in Hw; try discriminate.
  - destruct (body s) as [s1|] eqn:Eb; simpl in Hw; [|discriminate].
    apply (IH s1); eauto.
  - congruence.
Qed.

Lemma set_nth_length {X} (l l' : list X) k v : set_nth l k v = Some l' -> length l' = length l.
Proof.
  revert l' k. induction l as [|x l IH]; intros l' k H; destruct k; simpl in H; try discriminate.
  - injection H as <-. reflexivity.
  - destruct (set_nth l k v) as [r|] eqn:E; simpl in H; [|discriminate].
    injection H as <-. simpl. f_equal. eapply IH; eauto.
Qed.

Lemma py_set_length {X} (l l' : list X) i v : py_set l i v = Some l' -> length l' = length l.
Proof.
  unfold py_set. destruct (0 <=? i); [apply set_nth_length|].
  destruct (- Zlen l <=? i); [apply set_nth_length | discriminate].
Qed.

Lemma Zlen_app {X} (l1 l2 : list X) : Zlen (l1 ++ l2) = Zlen l1 + Zlen l2.
Proof. unfold Zlen. rewrite length_app. lia. Qed.

Lemma Zlen_cons {X} (x : X) l : Zlen (x :: l) = Zlen l + 1.
Proof. unfold Zlen. simpl. lia. Qed.

Lemma Zlen_map {X Y} (g : X -> Y) l : Zlen (map g l) = Zlen l.
Proof. unfold Zlen. rewrite length_map. reflexivity. Qed.

Lemma Zlen_range lo hi : lo <= hi -> Zlen (range lo hi) = hi - lo.
Proof. intros H. unfold Zlen, range. rewrite length_map, length_seq. lia. Qed.

Lemma nth_range lo hi k d : (Z.of_nat k < hi - lo) -> nth k (range lo hi) d = lo + Z.of_nat k.
Proof.
  intros H. unfold range.
  rewrite (nth_indep _ d ((fun k => lo + Z.of_nat k) 0%nat))
    by (rewrite length_map, length_seq; lia).
  rewrite (map_nth (fun k => lo + Z.of_nat k)), seq_nth by lia. reflexivity.
Qed.

(** Integer division facts for a step from [p - 1] to [p]. *)
Lemma div_step_mod0 p q : 0 < q -> 1 <= p -> p mod q = 0 -> (p - 1) / q + 1 = p / q.
Proof.
  intros Hq Hp Hm.
  assert (E : p = q * (p / q) + p mod q) by (apply Z.div_mod; lia).
  rewrite Hm in E.
  assert (Hd : (p - 1) / q = p / q - 1).
  { symmetry. apply Z.div_unique with (r := q - 1); [left; lia | lia]. }
  lia.
Qed.

Lemma div_step_modS p q : 0 < q -> 1 <= p -> p mod q <> 0 -> (p - 1) / q = p / q.
Proof.
  intros Hq Hp Hm.
  assert (E : p = q * (p / q) + p mod q) by (apply Z.div_mod; lia).
  assert (B : 0 <= p mod q < q) by (apply Z.mod_pos_bound; lia).
  symmetry. apply Z.div_unique with (r := p mod q - 1); [left; lia | lia].
Qed.

Lemma count_sym_app c l1 l2 : count_sym c (l1 ++ l2) = count_sym c l1 + count_sym c l2.
Proof. induction l1 as [|x l1 IH]; simpl; lia. Qed.

Lemma firstn_snoc {X} (l : list X) m d :
  (m < length l)%nat -> firstn (S m) l = firstn m l ++ [nth m l d].
Proof.
  revert m. induction l as [|x l IH]; intros m H; simpl in H; [lia|].
  destruct m; simpl; [reflexivity|]. f_equal. apply IH. lia.
Qed.

Lemma count_sym_firstn_S c l m :
  (m < length l)%nat ->
  count_sym c (firstn (S m) l) = count_sym c (firstn m l) + b2z (sym_eqb (nth m l Dollar) c).
Proof.
  intros H. rewrite (firstn_snoc l m Dollar H), count_sym_app. simpl. lia.
Qed.

Lemma skipn_nth_cons {X} (l : list X) s d :
  (s < length l)%nat -> skipn s l = nth s l d :: skipn (S s) l.
Proof.
  revert s. induction l as [|x l IH]; intros s H; simpl in H; [lia|].
  destruct s; simpl; [reflexivity|]. apply IH. lia.
Qed.

Lemma combine_range_skipn {X} (l : list X) (d : X) s :
  (s <= length l)%nat ->
  combine (range (Z.of_nat s) (Zlen l)) (skipn s l)
  = map (fun k => (Z.of_nat k, nth k l d)) (seq s (length l - s)).
Proof.
  remember (length l - s)%nat as m eqn:Hm. revert s Hm.
  induction m as [|m IH]; intros s Hm Hs.
  - rewrite range_nil by (unfold Zlen; lia).
    replace s with (length l) by lia. rewrite skipn_all. reflexivity.
  - rewrite range_cons by (unfold Zlen; lia).
    rewrite (skipn_nth_cons l s d) by lia.
    replace (length l - s)%nat with (S m) by lia. simpl. f_equal.
    replace (Z.of_nat s + 1) with (Z.of_nat (S s)) by lia.
    apply IH; lia.
Qed.

(** ** Building the index *)

Lemma init_inv genome st occ csa b :
  init genome st occ csa = Some b ->
  1 <= occ /\ 1 <= csa /\ 1 <= Zlen genome /\
  exists full, run_strategy (with_sentinel genome) st = Some full
               /\ init_from_sa (with_sentinel genome) full occ csa = Some b.
Proof.
  unfold init. intros H.
  destruct (Zlen genome <? 1) eqn:E1; [discriminate|].
  destruct ((occ <? 1) || (csa <? 1)) eqn:E2; [discriminate|].
  apply Z.ltb_ge in E1. apply orb_false_iff in E2. destruct E2 as [E2 E3].
  apply Z.ltb_ge in E2. apply Z.ltb_ge in E3.
  destruct (run_strategy (with_sentinel genome) st) as [full|] eqn:E4; simpl in H; [|discriminate].
  repeat split; auto. exists full. auto.
Qed.

Lemma init_from_sa_inv t full occ csa b :
  init_from_sa t full occ csa = Some b ->
  get_bwt t full = Some (code b)
  /\ compress_sa csa (bucket_step_of t) full csa = Some (sa b, bitvector b, bucket b)
  /\ _build_tally occ (code b) = Some (tally b, index_s b)
  /\ f b = _shifts_f t /\ compression_occ b = occ /\ compression_sa b = csa
  /\ bucket_step b = bucket_step_of t.
Proof.
  unfold init_from_sa. intros H.
  destruct (get_bwt t full) as [cd|] eqn:E1; simpl in H; [|discriminate].
  destruct (compress_sa csa (bucket_step_of t) full csa) as [[[sa0 bv] bk]|] eqn:E2;
    simpl in H; [|discriminate].
  destruct (_build_tally occ cd) as [[tl idx]|] eqn:E3; simpl in H; [|discriminate].
  injection H as <-. simpl. repeat split; auto.
Qed.

Lemma combine_range1_skipn1 {X} (l : list X) (d : X) :
  (1 <= length l)%nat ->
  combine (range 1 (Zlen l)) (skipn 1 l) = map (fun k => (Z.of_nat k, nth k l d)) (seq 1 (length l - 1)).
Proof. apply (combine_range_skipn l d 1). Qed.

Lemma tally_fold occ cd :
  1 <= occ -> forall m, (m < length cd)%nat ->
  exists idx cnts lsts,
    foldM (tally_step occ) (map (fun k => (Z.of_nat k, nth k cd Dollar)) (seq 1 m))
      (b2z (sym_eqb (nth 0 cd Dollar) Dollar), (fun ch => b2z (sym_eqb (nth 0 cd Dollar) ch)),
       (fun ch => [b2z (sym_eqb (nth 0 cd Dollar) ch)]))
    = Some (idx, cnts, lsts)
    /\ (forall ch, cnts ch = count_sym ch (firstn (S m) cd))
    /\ (forall ch, lsts ch = tally_samples occ cd ch (Z.of_nat m)).
Proof.
  intros Hocc m. induction m as [|m IH]; intros Hm.
  - do 3 eexists. split; [reflexivity|]. split.
    + intros ch. destruct cd as [|x r]; simpl in Hm; [lia|]. simpl. lia.
    + intros ch. unfold tally_samples.
      replace (Z.of_nat 0 / occ + 1) with 1 by (rewrite Z.div_0_l; lia).
      rewrite range_cons by lia. rewrite range_nil by lia. simpl map.
      destruct cd as [|x r]; simpl in Hm; [lia|].
      replace (Z.to_nat (0 * occ + 1)) with 1%nat by lia. simpl. f_equal. lia.
  - destruct IH as (idx & cnts & lsts & Hf & Hc & Hl); [lia|].
    rewrite seq_S, map_app, foldM_app, Hf. simpl obind.
    unfold foldM, tally_step. unfold py_mod.
    replace (occ =? 0) with false by (symmetry; apply Z.eqb_neq; lia). simpl obind.
    do 3 eexists. split; [reflexivity|]. split.
    + intros ch. rewrite Hc. rewrite (count_sym_firstn_S ch cd (S m)) by lia.
      replace (1 + m)%nat with (S m) by lia. reflexivity.
    + intros ch. unfold tally_samples.
      replace (1 + m)%nat with (S m) by lia.
      assert (Hp : 1 <= Z.of_nat (S m)) by lia.
      change (Z.pos (Pos.of_succ_nat m)) with (Z.of_nat (S m)).
      destruct (Z.of_nat (S m) mod occ =? 0) eqn:Em.
      * apply Z.eqb_eq in Em.
        pose proof (div_step_mod0 (Z.of_nat (S m)) occ ltac:(lia) Hp Em) as Hd.
        replace (Z.of_nat (S m) - 1) with (Z.of_nat m) in Hd by lia.
        rewrite <- Hd. rewrite range_snoc by (pose proof (Z.div_pos (Z.of_nat m) occ); lia).
        rewrite map_app, Hl. unfold tally_samples. f_equal. simpl. f_equal.
        rewrite Hc.
        assert (Hq : Z.of_nat (S m) = occ * (Z.of_nat (S m) / occ)).
        { pose proof (Z.div_mod (Z.of_nat (S m)) occ ltac:(lia)). lia. }
        replace (Z.to_nat ((Z.of_nat m / occ + 1) * occ + 1)) with (S (S m)) by lia.
        rewrite (count_sym_firstn_S ch cd (S m)) by lia. reflexivity.
      * apply Z.eqb_neq in Em.
        pose proof (div_step_modS (Z.of_nat (S m)) occ ltac:(lia) Hp Em) as Hd.
        replace (Z.of_nat (S m) - 1) with (Z.of_nat m) in Hd by lia.
        rewrite <- Hd. rewrite Hl. reflexivity.
Qed.

Lemma py_get_map_range {X} (g : Z -> X) lo hi k :
  0 <= k < hi - lo -> py_get (map g (range lo hi)) k = Some (g (lo + k)).
Proof.
  intros Hk. rewrite (py_get_in _ _ (g lo)) by (rewrite Zlen_map, Zlen_range; lia).
  rewrite (map_nth g), nth_range by lia. f_equal. f_equal. lia.
Qed.

Lemma build_tally_spec occ cd T s :
  1 <= occ -> _build_tally occ cd = Some (T, s) ->
  (1 <= length cd)%nat /\
  forall ch, T ch = if sym_eqb ch Dollar then None
                    else Some (tally_samples occ cd ch (Zlen cd - 1)).
Proof.
  intros Hocc H. unfold _build_tally in H.
  assert (Hl : (1 <= length cd)%nat) by (destruct cd; [simpl in H; discriminate | simpl; lia]).
  rewrite (combine_range1_skipn1 cd Dollar Hl) in H.
  rewrite (py_get_in _ _ Dollar) in H by (unfold Zlen; lia). cbn [obind] in H.
  replace (nth (Z.to_nat 0) cd Dollar) with (nth 0 cd Dollar) in H by reflexivity.
  destruct (tally_fold occ cd Hocc (length cd - 1) ltac:(lia)) as (idx & cnts & lsts & Hf & Hc & Hls).
  rewrite Hf in H. simpl in H. injection H as <- <-. split; [exact Hl|].
  intros ch. destruct (sym_eqb ch Dollar); [reflexivity|].
  rewrite Hls. f_equal. f_equal. unfold Zlen. lia.
Qed.

Lemma tally_samples_len occ cd ch m :
  1 <= occ -> 0 <= m -> Zlen (tally_samples occ cd ch m) = m / occ + 1.
Proof.
  intros Ho Hm. unfold tally_samples. rewrite Zlen_map, Zlen_range; [lia|].
  pose proof (Z.div_pos m occ). lia.
Qed.

Lemma tally_samples_get occ cd ch m k :
  1 <= occ -> 0 <= m -> 0 <= k < m / occ + 1 ->
  py_get (tally_samples occ cd ch m) k = Some (count_sym ch (firstn (Z.to_nat (k * occ + 1)) cd)).
Proof.
  intros Ho Hm Hk. unfold tally_samples. rewrite py_get_map_range by lia. reflexivity.
Qed.

Lemma sym_eqb_refl x : sym_eqb x x = true.
Proof. destruct x; reflexivity. Qed.

Lemma sym_eqb_eq x y : sym_eqb x y = true <-> x = y.
Proof. split; [destruct x, y; cbv; intros H; first [reflexivity | discriminate] | intros ->; apply sym_eqb_refl]. Qed.

(** C5 (amended): in every built index, the list [tally[c]] of a symbol
    [c] other than ['$'] holds one sample per checkpoint [k] with
    [0 <= k <= (len(BWT) - 1) // compression_occ], and the sample at [k] is the
    number of occurrences of [c] in the inclusive prefix
    [BWT[0 : k * compression_occ + 1]]. *)
Theorem tally_checkpoints_inclusive genome st occ csa b c L :
  init genome st occ csa = Some b -> tally b c = Some L ->
  c <> Dollar /\ Zlen L = (Zlen (code b) - 1) / occ + 1 /\
  forall k, 0 <= k < Zlen L ->
    py_get L k = Some (count_sym c (firstn (Z.to_nat (k * occ + 1)) (code b))).
Proof.
  intros Hi Ht. destruct (init_inv _ _ _ _ _ Hi) as (Ho & _ & _ & full & _ & Hs).
  destruct (init_from_sa_inv _ _ _ _ _ Hs) as (_ & _ & Hb & _).
  destruct (build_tally_spec _ _ _ _ Ho Hb) as (Hl & HT).
  rewrite HT in Ht. destruct (sym_eqb c Dollar) eqn:Ec; [discriminate|].
  injection Ht as <-. split; [intros ->; rewrite sym_eqb_refl in Ec; discriminate|].
  assert (Hm : 0 <= Zlen (code b) - 1) by (unfold Zlen; lia).
  rewrite tally_samples_len by lia. split; [reflexivity|].
  intros k Hk. apply tally_samples_get; lia.
Qed.

Lemma tally_checkpoints_inclusive_witness :
  exists b L, init [G; A; T; T; A; C; A] StrategySimple 2 2 = Some b /\ tally b A = Some L /\
    (A <> Dollar /\ Zlen L = (Zlen (code b) - 1) / 2 + 1 /\
     forall k, 0 <= k < Zlen L ->
       py_get L k = Some (count_sym A (firstn (Z.to_nat (k * 2 + 1)) (code b)))).
Proof.
  do 2 eexists. split; [vm_compute; reflexivity|]. split; [vm_compute; reflexivity|].
  apply (tally_checkpoints_inclusive [G; A; T; T; A; C; A] StrategySimple 2 2);
    vm_compute; reflexivity.
Defined.

(** ** The builders return a list of the text's length *)

Ltac crush_binds :=
  repeat match goal with
  | H : obind (if ?c then _ else _) _ = Some _ |- _ =>
      let Ec := fresh "Ec" in destruct c eqn:Ec; cbn iota in H
  | H : obind ?m _ = Some _ |- _ =>
      let v := fresh "v" in let E := fresh "E" in
      destruct m as [v|] eqn:E; [cbn [obind] in H | discriminate H]
  | H : (if ?c then _ else _) = Some _ |- _ =>
      let Ec := fresh "Ec" in destruct c eqn:Ec; cbn iota in H
  | H : match ?v with pair _ _ => _ end = Some _ |- _ => destruct v; cbn iota in H
  | H : Some _ = Some _ |- _ => injection H; clear H; intros; subst
  | H : None = Some _ |- _ => discriminate H
  end.

Lemma insert_sorted_length x l : length (insert_sorted x l) = S (length l).
Proof.
  induction l as [|y l IH]; simpl; [reflexivity|].
  destruct (pair_lt x y); simpl; [reflexivity | now rewrite IH].
Qed.

Lemma py_sorted_length l : length (py_sorted l) = length l.
Proof.
  unfold py_sorted.
  assert (H : forall acc, length (fold_left (fun acc x => insert_sorted x acc) l acc)
                          = (length l + length acc)%nat).
  { induction l as [|x l IH]; intros acc; simpl; [reflexivity|].
    rewrite IH, insert_sorted_length. lia. }
  rewrite H. simpl. lia.
Qed.

Lemma length_range lo hi : length (range lo hi) = Z.to_nat (hi - lo).
Proof. unfold range. rewrite length_map, length_seq. reflexivity. Qed.

Lemma suffix_array_simple_length t : length (suffix_array_simple t) = length t.
Proof.
  unfold suffix_array_simple. rewrite length_map, py_sorted_length, length_map, length_range.
  unfold Zlen. lia.
Qed.

Lemma py_repeat_length {X} (x : X) n : length (py_repeat x n) = Z.to_nat n.
Proof. unfold py_repeat. apply repeat_length. Qed.

Lemma sort_chars_length t o : ManberMyers.sort_chars t = Some o -> length o = length t.
Proof.
  unfold ManberMyers.sort_chars. intros H. crush_binds.
  match goal with E : foldM _ (range_down _ _) (_, py_repeat 0 _) = Some (_, _) |- _ =>
    apply (foldM_inv (fun '(_, o) => length o = length t)) in E end.
  - assumption.
  - intros [c0 o0] x [c1 o1] _ Ho Hg. crush_binds.
    match goal with E : py_set o0 _ _ = Some _ |- _ => apply py_set_length in E end. lia.
  - rewrite py_repeat_length. unfold Zlen. lia.
Qed.

Lemma sort_doubled_length t step o cl r :
  ManberMyers.sort_doubled t step o cl = Some r -> length r = length t.
Proof.
  unfold ManberMyers.sort_doubled. intros H. crush_binds.
  match goal with E : foldM _ (range_down _ _) (_, py_repeat 0 _) = Some (_, _) |- _ =>
    apply (foldM_inv (fun '(_, o) => length o = length t)) in E end.
  - assumption.
  - intros [c0 o0] x [c1 o1] _ Ho Hg. crush_binds.
    match goal with E : py_set o0 _ _ = Some _ |- _ => apply py_set_length in E end. lia.
  - rewrite py_repeat_length. unfold Zlen. lia.
Qed.

Lemma suffix_array_manbermyers_length t o :
  ManberMyers.suffix_array_manbermyers t = Some o -> length o = length t.
Proof.
  unfold ManberMyers.suffix_array_manbermyers. intros H. crush_binds.
  match goal with E : py_while _ _ _ _ = Some _ |- _ =>
    apply (py_while_inv (fun '(o, _, _) => length o = length t)) in E end.
  - assumption.
  - intros [[o0 c0] s0] [[o1 c1] s1] _ _ Hb. crush_binds. eapply sort_doubled_length; eauto.
  - eapply sort_chars_length; eauto.
Qed.

Lemma merge_length s s12 sa12 sa0 n n0 n02 sa p t r :
  KaerkkaeinenSanders.merge s s12 sa12 sa0 n n0 n02 sa p t = Some r -> length r = length sa.
Proof.
  unfold KaerkkaeinenSanders.merge. intros H. crush_binds.
  match goal with E : py_while _ _ _ _ = Some _ |- _ =>
    apply (py_while_inv (fun '(sa', _, _, _) => length sa' = length sa)) in E end;
    [assumption | | reflexivity].
  intros [[[sa1 p1] t1] k1] s1 Hl _ Hb. crush_binds;
  repeat match goal with E : py_set _ _ _ = Some _ |- _ => apply py_set_length in E end;
  try lia.
  all: match goal with E : py_while _ _ _ _ = Some _ |- _ =>
      apply (py_while_inv (fun '(sa', _, _) => length sa' = length sa)) in E end;
      [assumption | | simpl; lia].
  all: intros [[sa2 p2] k2] s2 Hl2 _ Hb2; crush_binds;
    match goal with E : py_set _ _ _ = Some _ |- _ => apply py_set_length in E end; lia.
Qed.

Lemma sa_rec_length fuel s n k r :
  KaerkkaeinenSanders.sa_rec fuel s n k = Some r -> length r = Z.to_nat n.
Proof.
  destruct fuel as [|fuel]; simpl; intros H; [discriminate|].
  crush_binds.
  all: match goal with E : KaerkkaeinenSanders.merge _ _ _ _ _ _ _ _ _ _ = Some _ |- _ =>
    apply merge_length in E end.
  all: rewrite py_repeat_length in *; assumption.
Qed.

Lemma run_strategy_length t st full : run_strategy t st = Some full -> length full = length t.
Proof.
  destruct st; simpl; intros H.
  - unfold KaerkkaeinenSanders.suffix_array_kaerkkaeinensanders in H.
    destruct t as [|x r]; [discriminate|]. apply sa_rec_length in H. rewrite H. unfold Zlen. lia.
  - eapply suffix_array_manbermyers_length; eauto.
  - injection H as <-. apply suffix_array_simple_length.
Qed.

(** ** Lengths of the bit-vector and of the bucket table *)

Lemma compress_fold csa bs full sc0 bits0 bk0 r0 :
  1 <= csa -> 1 <= bs -> forall m, (S m <= length full)%nat ->
  exists sc bits bk r,
    foldM (compress_step csa bs) (map (fun k => (Z.of_nat k, nth k full 0)) (seq 0 (S m)))
      (sc0, bits0, bk0, r0) = Some (sc, bits, bk, r)
    /\ length bits = (length bits0 + S m)%nat /\ Zlen bk = Zlen bk0 + Z.of_nat m / bs.
Proof.
  intros Hc Hb m. induction m as [|m IH]; intros Hm.
  - simpl. unfold compress_step, py_mod.
    replace (csa =? 0) with false by (symmetry; apply Z.eqb_neq; lia). simpl.
    destruct (nth 0 full 0 mod csa =? 0); simpl; do 4 eexists; (split; [reflexivity|]);
      rewrite length_app; simpl; split; try lia; rewrite Z.div_0_l; lia.
  - destruct IH as (sc & bits & bk & r & Hf & Hl & Hk); [lia|].
    rewrite seq_S, map_app, foldM_app, Hf. simpl obind. simpl foldM.
    unfold compress_step, py_mod.
    replace (csa =? 0) with false by (symmetry; apply Z.eqb_neq; lia).
    replace (bs =? 0) with false by (symmetry; apply Z.eqb_neq; lia).
    replace (0 <? Z.of_nat (0 + S m)) with true by (symmetry; apply Z.ltb_lt; lia).
    simpl obind.
    assert (Hp : 1 <= Z.of_nat (S m)) by lia.
    change (Z.pos (Pos.of_succ_nat m)) with (Z.of_nat (S m)).
    replace (0 + S m)%nat with (S m) by lia.
    destruct (Z.of_nat (S m) mod bs =? 0) eqn:Em.
    + apply Z.eqb_eq in Em.
      pose proof (div_step_mod0 (Z.of_nat (S m)) bs ltac:(lia) Hp Em) as Hd.
      replace (Z.of_nat (S m) - 1) with (Z.of_nat m) in Hd by lia.
      destruct (nth (S m) full 0 mod csa =? 0); cbn [obind];
        do 4 eexists; (split; [reflexivity|]); rewrite length_app; cbn [length];
        (split; [lia|]); rewrite Zlen_app, <- Hd; unfold Zlen at 2; simpl length; lia.
    + apply Z.eqb_neq in Em.
      pose proof (div_step_modS (Z.of_nat (S m)) bs ltac:(lia) Hp Em) as Hd.
      replace (Z.of_nat (S m) - 1) with (Z.of_nat m) in Hd by lia.
      destruct (nth (S m) full 0 mod csa =? 0); cbn [obind];
        do 4 eexists; (split; [reflexivity|]); rewrite length_app; cbn [length];
        (split; [lia|]); rewrite <- Hd; lia.
Qed.

Lemma compress_sa_lengths csa bs full sc bv bk :
  1 < csa -> 1 <= bs -> compress_sa csa bs full csa = Some (sc, bv, bk) ->
  exists bits bucket, bv = Some bits /\ bk = Some bucket
    /\ length bits = length full /\ Zlen bucket = 1 + (Zlen full - 1) / bs.
Proof.
  intros Hc Hb H. unfold compress_sa in H.
  replace (csa =? 1) with false in H by (symmetry; apply Z.eqb_neq; lia).
  assert (Hl : (1 <= length full)%nat) by (destruct full; [simpl in H; discriminate | simpl; lia]).
  rewrite (py_get_in _ _ 0) in H by (unfold Zlen; lia). cbn [obind] in H.
  unfold py_mod in H. replace (csa =? 0) with false in H by (symmetry; apply Z.eqb_neq; lia).
  cbn [obind] in H.
  change (range 0 (Zlen full)) with (range (Z.of_nat 0) (Zlen full)) in H.
  change full with (skipn 0 full) in H at 2.
  rewrite (combine_range_skipn full 0 0) in H by lia.
  replace (length full - 0)%nat with (S (length full - 1)) in H by lia.
  destruct (compress_fold csa bs full [] [] [b2z (nth (Z.to_nat 0) full 0 mod csa =? 0)] 0
              ltac:(lia) Hb (length full - 1) ltac:(lia)) as (sc' & bits & bk' & r & Hf & Hlb & Hk).
  rewrite Hf in H. cbn [obind] in H. injection H as <- <- <-.
  exists bits, bk'. repeat split; [simpl in Hlb; lia|].
  rewrite Hk. unfold Zlen. simpl length.
  replace (Z.of_nat (length full - 1)) with (Z.of_nat (length full) - 1) by lia. lia.
Qed.

Lemma mapM_length {X Y} (g : X -> option Y) l r : mapM g l = Some r -> length r = length l.
Proof.
  revert r. induction l as [|x l IH]; intros r H; simpl in H.
  - injection H as <-. reflexivity.
  - destruct (g x); simpl in H; [|discriminate].
    destruct (mapM g l) as [r'|] eqn:E; simpl in H; [|discriminate].
    injection H as <-. simpl. f_equal. apply IH. reflexivity.
Qed.

Lemma get_bwt_length t full cd : get_bwt t full = Some cd -> length cd = length full.
Proof. unfold get_bwt. destruct full; [discriminate|]. apply mapM_length. Qed.

Lemma In_range x lo hi : In x (range lo hi) -> lo <= x < hi.
Proof.
  unfold range. intros H. apply in_map_iff in H. destruct H as (k & <- & Hk).
  apply in_seq in Hk. lia.
Qed.

Lemma foldM_total {X St} (g : St -> X -> option St) l s :
  (forall s0 x, In x l -> exists s1, g s0 x = Some s1) -> exists r, foldM g l s = Some r.
Proof.
  revert s. induction l as [|x l IH]; intros s Hg; simpl; [eauto|].
  destruct (Hg s x (or_introl eq_refl)) as [s1 E]. rewrite E. simpl.
  apply IH. intros; apply Hg; right; assumption.
Qed.

(** The index as the constructor leaves it: [code] has the text's length. *)
Lemma init_shape genome st occ csa b :
  init genome st occ csa = Some b ->
  exists full, run_strategy (with_sentinel genome) st = Some full
    /\ init_from_sa (with_sentinel genome) full occ csa = Some b
    /\ length full = length (with_sentinel genome) /\ length (code b) = length full.
Proof.
  intros Hi. destruct (init_inv _ _ _ _ _ Hi) as (_ & _ & _ & full & Hr & Hs).
  exists full. repeat split; try assumption.
  - apply (run_strategy_length _ st); assumption.
  - destruct (init_from_sa_inv _ _ _ _ _ Hs) as (Hg & _). eapply get_bwt_length; eauto.
Qed.

(** C10: in a built index with [compression_sa > 1], [rank_bit(i)] for a row
    [0 <= i < len(BWT)] returns a value (no division by a zero
    [bucket_step], no access out of the bit-vector or of the bucket table)
    exactly when the sentinel-terminated text has at least two characters;
    for the one-character text ["$"] [bucket_step] is [log2(1) = 0] and the
    call divides by zero. *)
Theorem rank_bit_total genome st occ csa b i :
  init genome st occ csa = Some b -> 1 < csa -> 0 <= i < Zlen (code b) ->
  (2 <= Zlen (code b) <-> rank_bit b i <> None).
Proof.
  intros Hi Hc Hrow.
  destruct (init_shape _ _ _ _ _ Hi) as (full & _ & Hs & Hlf & Hlc).
  destruct (init_from_sa_inv _ _ _ _ _ Hs) as (_ & Hcs & _ & _ & _ & Hcsa & Hbs).
  assert (HL : Zlen (code b) = Zlen (with_sentinel genome)) by (unfold Zlen; lia).
  unfold bucket_step_of in Hcs, Hbs. rewrite <- HL in Hcs, Hbs.
  unfold rank_bit. rewrite Hcsa, Hbs.
  replace (csa =? 0) with false by (symmetry; apply Z.eqb_neq; lia).
  split.
  - intros H2.
    assert (Hb1 : 1 <= Z.log2 (Zlen (code b))) by (pose proof (Z.log2_pos (Zlen (code b))); lia).
    destruct (compress_sa_lengths _ _ _ _ _ _ Hc Hb1 Hcs)
      as (bits & bucket & Hbv & Hbk & Hlb & Hlk).
    set (bs := Z.log2 (Zlen (code b))) in *.
    unfold py_int_div. replace (bs =? 0) with false by (symmetry; apply Z.eqb_neq; lia).
    cbn [obind]. rewrite Z.quot_div_nonneg by lia.
    assert (Hq0 : 0 <= i / bs) by (apply Z.div_pos; lia).
    assert (Hq1 : i / bs <= (Zlen full - 1) / bs)
      by (apply Z.div_le_mono; unfold Zlen in *; lia).
    destruct (foldM_total (fun rank i => bv <- bitvector b;; x <- py_get bv i;; Some (rank + x))
                (range (i / bs * bs + 1) (i + 1)) 0) as [r Hr].
    { intros s0 x Hx. apply In_range in Hx. rewrite Hbv. cbn [obind].
      assert (0 <= i / bs * bs) by (apply Z.mul_nonneg_nonneg; lia).
      rewrite (py_get_in _ _ 0) by (unfold Zlen in *; lia). cbn [obind]. eauto. }
    rewrite Hr. cbn [obind]. rewrite Hbk. cbn [obind].
    rewrite (py_get_in _ _ 0) by lia. discriminate.
  - intros H. destruct (Z_lt_le_dec (Zlen (code b)) 2) as [Hlt|]; [|assumption].
    exfalso. apply H. replace (Zlen (code b)) with 1 by lia. reflexivity.
Qed.

Lemma rank_bit_total_witness :
  exists b, init [G; A; T; T; A; C; A] StrategyKaerkkaeinenSanders 2 2 = Some b /\
    1 < 2 /\ 0 <= 3 < Zlen (code b) /\
    (2 <= Zlen (code b) <-> rank_bit b 3 <> None).
Proof.
  eexists. split; [vm_compute; reflexivity|]. split; [lia|].
  split; [split; [lia | apply Z.ltb_lt; vm_compute; reflexivity]|].
  apply (rank_bit_total [G; A; T; T; A; C; A] StrategyKaerkkaeinenSanders 2 2);
    [vm_compute; reflexivity | lia | split; [lia | apply Z.ltb_lt; vm_compute; reflexivity]].
Defined.

(** ** The mapper *)
Module ATKHProps.
Import ATKH.

Lemma list_eqb_refl {X} (eqb : X -> X -> bool) l :
  (forall x, eqb x x = true) -> list_eqb eqb l l = true.
Proof. intros He. induction l as [|x l IH]; simpl; [reflexivity|]. rewrite He, IH. reflexivity. Qed.

Lemma read_eqb_refl r : read_eqb r r = true.
Proof.
  unfold read_eqb. rewrite String.eqb_refl, (list_eqb_refl sym_eqb _ sym_eqb_refl),
    (list_eqb_refl Z.eqb _ Z.eqb_refl), Bool.eqb_reflx. reflexivity.
Qed.

Lemma read_eqb_strands r1 r2 : is_forward r1 <> is_forward r2 -> read_eqb r1 r2 = false.
Proof.
  intros H. unfold read_eqb.
  destruct (Bool.eqb (is_forward r1) (is_forward r2)) eqn:E.
  - apply Bool.eqb_prop in E. contradiction.
  - rewrite !andb_false_r. reflexivity.
Qed.

Section Props.
Variable random_kmers : Read -> list (Z * list sym * list Z).
Variable query : list sym -> list Z.
Variable propose_window : Z -> Z -> Z -> Z -> Z * Z.
Variable Alignment Cigar : Type.
Variable loc_in_ref : Alignment -> Z.
Variable alignment_cigar : Alignment -> Cigar.
Variable align : list sym -> list sym -> list Alignment.
Variable ref_genome : list sym.

Local Abbreviation P := (proposals_of random_kmers query).
Local Abbreviation map_one' := (map_one random_kmers query).
Local Abbreviation segment_of' :=
  (segment_of propose_window Alignment Cigar loc_in_ref alignment_cigar align ref_genome).
Local Abbreviation map_pair' := (map_pair random_kmers query propose_window Alignment Cigar
                               loc_in_ref alignment_cigar align ref_genome).
Local Abbreviation map_paired_loop' := (map_paired_loop random_kmers query propose_window
                               Alignment Cigar loc_in_ref alignment_cigar align ref_genome).
Local Abbreviation map_paired' := (map_paired random_kmers query propose_window Alignment Cigar
                               loc_in_ref alignment_cigar align ref_genome).

Lemma segment_of_not_unmapped r o : segment_of' r o <> Raise UnmappedReadpair.
Proof.
  unfold segment_of. destruct (select_option o) as [[[[i u] q] j]|]; [|discriminate].
  destruct (align _ _); discriminate.
Qed.

(** C7: [map_one(read, decide=True)] returns the reverse complement with
    its proposals exactly when it has strictly more seed hits than the
    forward read, and the forward read otherwise (ties included); a segment
    built for the returned read has [is_minus_strand = not read.is_forward]. *)
Theorem map_one_orientation read :
  let chosen := if Zlen (P read) <? Zlen (P (reversed read))
                then (reversed read, P (reversed read)) else (read, P read) in
  map_one' read true = [chosen]
  /\ forall o, match segment_of' (fst chosen) o with
               | Ok s => is_minus_strand s = negb (is_forward (fst chosen))
               | Raise _ => True
               end.
Proof.
  intros chosen. split.
  - unfold map_one, py_max_by. simpl. reflexivity.
  - intros o. unfold segment_of.
    destruct (select_option o) as [[[[i u] q] j]|]; [|exact I].
    destruct (align _ _); [exact I | reflexivity].
Qed.

Lemma map_pair_dicts r1 r2 (seg1 seg2 : Segment Cigar) :
  is_forward r1 <> is_forward r2 ->
  (match dict_get (dict_set (dict_set [] r1 seg1) r2 seg2) r1,
         dict_get (dict_set (dict_set [] r1 seg1) r2 seg2) r2 with
   | Some s1, Some s2 =>
       let d := dict_set (dict_set (dict_set [] r1 seg1) r2 seg2) r1 (set_pnext Cigar s1 (pos s2)) in
       match dict_get d r2, dict_get d r1 with
       | Some s2, Some s1 =>
           let d := dict_set d r2 (set_pnext Cigar s2 (pos s1)) in
           match dict_get d r1, dict_get d r2 with
           | Some s1, Some s2 => Ok [s1; s2]
           | _, _ => Raise KeyError
           end
       | _, _ => Raise KeyError
       end
   | _, _ => Raise KeyError
   end) = Ok [set_pnext Cigar seg1 (pos seg2); set_pnext Cigar seg2 (pos seg1)].
Proof.
  intros Hs. pose proof (read_eqb_strands r1 r2 Hs) as E12.
  assert (E21 : read_eqb r2 r1 = false) by (apply read_eqb_strands; congruence).
  repeat progress (simpl; rewrite ?E12, ?E21, ?read_eqb_refl).
  reflexivity.
Qed.

Lemma map_one_decide read :
  map_one' read true = [if Zlen (P read) <? Zlen (P (reversed read))
                        then (reversed read, P (reversed read)) else (read, P read)].
Proof. unfold map_one, py_max_by. simpl. reflexivity. Qed.

(** [map_pair] once the two orientations are chosen and the segments built. *)
Lemma map_pair_shape read1 read2 r1 o1 r2 o2 :
  map_one' read1 true = [(r1, o1)] -> map_one' read2 true = [(r2, o2)] ->
  map_pair' read1 read2 =
    if Bool.eqb (is_forward r1) (is_forward r2) then Raise UnmappedReadpair
    else if (match o1 with [] => true | _ => false end)
            || (match o2 with [] => true | _ => false end) then Raise UnmappedReadpair
    else match segment_of' r1 o1 with
         | Raise e => Raise e
         | Ok seg1 =>
           match segment_of' r2 o2 with
           | Raise e => Raise e
           | Ok seg2 => Ok [set_pnext Cigar seg1 (pos seg2); set_pnext Cigar seg2 (pos seg1)]
           end
         end.
Proof.
  intros H1 H2. unfold map_pair. rewrite H1, H2.
  destruct (Bool.eqb (is_forward r1) (is_forward r2)) eqn:Eb; [reflexivity|].
  assert (Hs : is_forward r1 <> is_forward r2)
    by (intros He; rewrite He, Bool.eqb_reflx in Eb; discriminate).
  destruct (_ || _); [reflexivity|].
  destruct (segment_of' r1 o1) as [seg1|e]; [|reflexivity].
  destruct (segment_of' r2 o2) as [seg2|e]; [|reflexivity].
  apply map_pair_dicts; assumption.
Qed.

Lemma map_one_single read : exists r o, map_one' read true = [(r, o)].
Proof. rewrite map_one_decide. destruct (_ <? _); eauto. Qed.

Lemma map_paired_loop_ok pairs n out :
  (forall p e, In p pairs -> map_pair' (fst p) (snd p) = Raise e -> e = UnmappedReadpair) ->
  map_paired_loop' pairs n out =
    (out ++ flat_map (fun p => match map_pair' (fst p) (snd p) with
                               | Ok segs => segs | Raise _ => [] end) pairs,
     n + Zlen (filter (fun p => match map_pair' (fst p) (snd p) with
                                | Raise UnmappedReadpair => true | _ => false end) pairs),
     None).
Proof.
  revert n out. induction pairs as [|[r1 r2] pairs IH]; intros n out He; simpl.
  - rewrite app_nil_r. f_equal. f_equal. unfold Zlen. simpl. lia.
  - destruct (map_pair' r1 r2) as [segs|e] eqn:Em.
    + rewrite IH by (intros; apply (He p e); [right|]; assumption).
      rewrite app_assoc. reflexivity.
    + assert (e = UnmappedReadpair) by (apply (He (r1, r2) e); [left|]; auto). subst e.
      rewrite IH by (intros; apply (He p e); [right|]; assumption).
      f_equal. f_equal. rewrite Zlen_cons. lia.
Qed.

(** C8: when [map_pair] yields its segments, it yields two, and the mate
    position of each is the position of the other. *)
Theorem map_pair_mate_positions read1 read2 segs :
  map_pair random_kmers query propose_window Alignment Cigar loc_in_ref alignment_cigar align
    ref_genome read1 read2 = Ok segs ->
  exists s1 s2, segs = [s1; s2] /\ pnext s1 = Some (pos s2) /\ pnext s2 = Some (pos s1).
Proof.
  intros H.
  destruct (map_one_single read1) as (r1 & o1 & H1).
  destruct (map_one_single read2) as (r2 & o2 & H2).
  rewrite (map_pair_shape _ _ _ _ _ _ H1 H2) in H.
  destruct (Bool.eqb _ _); [discriminate|]. destruct (_ || _); [discriminate|].
  destruct (segment_of' r1 o1) as [seg1|]; [|discriminate].
  destruct (segment_of' r2 o2) as [seg2|]; [|discriminate].
  injection H as <-. do 2 eexists. split; [reflexivity|]. split; reflexivity.
Qed.

(** C6: [map_pair] raises [UnmappedReadpair] exactly when the two chosen
    orientations are on the same strand or one of them has no seed hit;
    [map_paired] never lets [UnmappedReadpair] escape, and when no other
    exception is raised it yields the segments of the mapped pairs, in order,
    and counts the unmapped pairs in [unmapped_pairs]. *)
Theorem map_pair_unmapped_caught :
  (forall read1 read2 r1 o1 r2 o2,
     map_one' read1 true = [(r1, o1)] -> map_one' read2 true = [(r2, o2)] ->
     (map_pair' read1 read2 = Raise UnmappedReadpair <->
      is_forward r1 = is_forward r2 \/ o1 = [] \/ o2 = []))
  /\ (forall pairs n out, snd (map_paired_loop' pairs n out) <> Some UnmappedReadpair)
  /\ (forall pairs,
       (forall p e, In p pairs -> map_pair' (fst p) (snd p) = Raise e -> e = UnmappedReadpair) ->
       map_paired' pairs =
         (flat_map (fun p => match map_pair' (fst p) (snd p) with
                             | Ok segs => segs | Raise _ => [] end) pairs,
          Zlen (filter (fun p => match map_pair' (fst p) (snd p) with
                                 | Raise UnmappedReadpair => true | _ => false end) pairs),
          None)).
Proof.
  split; [|split].
  - intros read1 read2 r1 o1 r2 o2 H1 H2. rewrite (map_pair_shape _ _ _ _ _ _ H1 H2).
    split.
    + destruct (Bool.eqb (is_forward r1) (is_forward r2)) eqn:Eb.
      { intros _. left. apply Bool.eqb_prop. assumption. }
      destruct o1 as [|x1 o1]; [intros _; right; left; reflexivity|].
      destruct o2 as [|x2 o2]; [intros _; right; right; reflexivity|].
      simpl.
      destruct (segment_of' r1 (x1 :: o1)) as [seg1|e1] eqn:S1.
      * destruct (segment_of' r2 (x2 :: o2)) as [seg2|e2] eqn:S2; [discriminate|].
        intros He. injection He as ->. exfalso. eapply segment_of_not_unmapped; eauto.
      * intros He. injection He as ->. exfalso. eapply segment_of_not_unmapped; eauto.
    + intros [He | [ -> | -> ]].
      * rewrite He, Bool.eqb_reflx. reflexivity.
      * destruct (Bool.eqb _ _); reflexivity.
      * destruct (Bool.eqb _ _); [reflexivity|]. rewrite orb_true_r. reflexivity.
  - intros pairs. induction pairs as [|[r1 r2] pairs IH]; intros n out; simpl; [discriminate|].
    destruct (map_pair' r1 r2) as [segs|e]; [apply IH|].
    destruct e; [apply IH | discriminate | discriminate | discriminate].
  - intros pairs He. unfold map_paired. rewrite (map_paired_loop_ok pairs 0 [] He). reflexivity.
Qed.

End Props.

Import ATKHExample.

Lemma map_pair_unmapped_caught_witness :
  exists r1 o1 r2 o2,
    map_one ex_kmers ex_query (ex_read [A; C]) true = [(r1, o1)]
    /\ map_one ex_kmers ex_query (ex_read [A; C]) true = [(r2, o2)]
    /\ (map_pair ex_kmers ex_query ex_window Z unit ex_loc ex_cigar ex_align ex_ref
          (ex_read [A; C]) (ex_read [A; C]) = Raise UnmappedReadpair
        <-> is_forward r1 = is_forward r2 \/ o1 = [] \/ o2 = [])
    /\ map_paired ex_kmers ex_query ex_window Z unit ex_loc ex_cigar ex_align ex_ref ex_pairs =
       (flat_map (fun p => match map_pair ex_kmers ex_query ex_window Z unit ex_loc ex_cigar
                                   ex_align ex_ref (fst p) (snd p) with
                           | Ok segs => segs | Raise _ => [] end) ex_pairs,
        Zlen (filter (fun p => match map_pair ex_kmers ex_query ex_window Z unit ex_loc ex_cigar
                                       ex_align ex_ref (fst p) (snd p) with
                               | Raise UnmappedReadpair => true | _ => false end) ex_pairs),
        None).
Proof.
  do 4 eexists. split; [vm_compute; reflexivity|]. split; [vm_compute; reflexivity|].
  destruct (map_pair_unmapped_caught ex_kmers ex_query ex_window Z unit ex_loc ex_cigar
              ex_align ex_ref) as (H1 & _ & H3).
  split.
  - apply H1; vm_compute; reflexivity.
  - apply H3. intros p e Hp He. simpl in Hp.
    destruct Hp as [<- | [<- | []]]; vm_compute in He; congruence.
Defined.

Lemma map_pair_mate_positions_witness :
  exists segs,
    map_pair ex_kmers ex_query ex_window Z unit ex_loc ex_cigar ex_align ex_ref
      (ex_read [A; C]) (ex_read [G; T]) = Ok segs
    /\ exists s1 s2, segs = [s1; s2] /\ pnext s1 = Some (pos s2) /\ pnext s2 = Some (pos s1).
Proof.
  eexists. split; [vm_compute; reflexivity|].
  apply (map_pair_mate_positions ex_kmers ex_query ex_window Z unit ex_loc ex_cigar
           ex_align ex_ref (ex_read [A; C]) (ex_read [G; T])).
  vm_compute. reflexivity.
Defined.

End ATKHProps.

(** ** The Smith-Waterman example *)

(** C9 (counterexample): in the example the spans of the local alignments
    ending at the cells of maximal score are never [(3, 5)], neither in the
    reference nor in the query. *)
Lemma sw_example_no_span_3_5 :
  Forall (fun c => match SmithWaterman.alignment_spans SmithWaterman.example_costs
                           SmithWaterman.example_ref SmithWaterman.example_query (fst c) (snd c) with
                   | Some (rs, qs) => rs <> (3%nat, 5%nat) /\ qs <> (3%nat, 5%nat)
                   | None => True
                   end)
    (SmithWaterman.max_cells SmithWaterman.example_matrix).
Proof. vm_compute. repeat constructor; discriminate. Qed.

(** C9 (amended): the maximum of the example's matrix is 3, reached at the
    cells (5, 5) and (8, 7); the alignment ending at (5, 5) spans
    [ref[2:5] = query[2:5] = "GGC"], the one ending at (8, 7) spans
    [ref[5:8] = "CTC"] and [query[4:7] = "CTC"] (0-based, half-open). *)
Theorem sw_example_max_and_spans :
  SmithWaterman.matrix_max SmithWaterman.example_matrix = 3
  /\ SmithWaterman.max_cells SmithWaterman.example_matrix = [(5%nat, 5%nat); (8%nat, 7%nat)]
  /\ SmithWaterman.alignment_spans SmithWaterman.example_costs SmithWaterman.example_ref
       SmithWaterman.example_query 5 5 = Some ((2%nat, 5%nat), (2%nat, 5%nat))
  /\ SmithWaterman.alignment_spans SmithWaterman.example_costs SmithWaterman.example_ref
       SmithWaterman.example_query 8 7 = Some ((5%nat, 8%nat), (4%nat, 7%nat)).
Proof. vm_compute. repeat split. Qed.

(** ** Order of suffixes and counting *)

Lemma str_lt_irrefl x : str_lt x x = false.
Proof.
  induction x as [|a x IH]; simpl; [reflexivity|].
  rewrite Z.ltb_irrefl, IH, andb_false_r. reflexivity.
Qed.

Lemma str_lt_asym x y : str_lt x y = true -> str_lt y x = false.
Proof.
  revert y; induction x as [|a x IH]; intros [|b y] H; simpl in *;
    try discriminate H; try reflexivity.
  unfold sym_eqb in *. apply orb_true_iff in H. destruct H as [H|H].
  - apply Z.ltb_lt in H.
    rewrite (proj2 (Z.ltb_ge _ _)) by lia. rewrite (proj2 (Z.eqb_neq _ _)) by lia. reflexivity.
  - apply andb_true_iff in H as [H1 H2]. apply Z.eqb_eq in H1.
    rewrite H1, Z.ltb_irrefl, Z.eqb_refl, IH by assumption. reflexivity.
Qed.

Lemma sym_ord_inj x y : sym_ord x = sym_ord y -> x = y.
Proof. destruct x, y; simpl; congruence. Qed.

Lemma Permutation_filter_length {X} (P : X -> bool) l l' :
  Permutation l l' -> length (filter P l) = length (filter P l').
Proof.
  induction 1 as [| x l l' _ IH | x y l | l l' l'' _ IH1 _ IH2]; simpl.
  - reflexivity.
  - destruct (P x); simpl; lia.
  - destruct (P x), (P y); simpl; lia.
  - lia.
Qed.

Lemma count_sym_filter c l :
  count_sym c l = Z.of_nat (length (filter (fun x => sym_eqb x c) l)).
Proof.
  induction l as [|x l IH]; simpl; [reflexivity|].
  rewrite IH. unfold b2z. destruct (sym_eqb x c); cbn [filter length]; lia.
Qed.

Lemma map_nth_seq_self {X} (l : list X) d : map (fun q => nth q l d) (seq 0 (length l)) = l.
Proof.
  induction l as [|x l IH]; simpl; [reflexivity|]. f_equal.
  rewrite <- seq_shift, map_map. exact IH.
Qed.

Lemma filter_seq_nth {X} (P : X -> bool) l d :
  length (filter (fun q => P (nth q l d)) (seq 0 (length l))) = length (filter P l).
Proof.
  rewrite <- (map_nth_seq_self l d) at 2. rewrite filter_map_swap, length_map. reflexivity.
Qed.

Lemma filter_length_orb_disj {X} (P Q : X -> bool) l :
  (forall x, In x l -> P x = true -> Q x = false) ->
  length (filter (fun x => P x || Q x) l) = (length (filter P l) + length (filter Q l))%nat.
Proof.
  induction l as [|x l IH]; intros Hd; simpl; [reflexivity|].
  assert (IH' := IH (fun y Hy => Hd y (or_intror Hy))).
  destruct (P x) eqn:Ep; simpl.
  - rewrite (Hd x (or_introl eq_refl) Ep). simpl. lia.
  - destruct (Q x); simpl; lia.
Qed.

Lemma filter_seq_lt i n : (i <= n)%nat -> length (filter (fun k => Nat.ltb k i) (seq 0 n)) = i.
Proof.
  intros H. replace n with (i + (n - i))%nat by lia. rewrite seq_app, filter_app, length_app.
  rewrite (filter_ext_in _ (fun _ => true) (seq 0 i)), filter_true, length_seq
    by (intros k Hk; apply in_seq in Hk; apply Nat.ltb_lt; lia).
  rewrite (filter_ext_in _ (fun _ => false) (seq (0 + i) (n - i))), filter_false
    by (intros k Hk; apply in_seq in Hk; apply Nat.ltb_ge; lia).
  simpl. lia.
Qed.

Lemma map_seq_nth {X} (g : nat -> X) n k d : (k < n)%nat -> nth k (map g (seq 0 n)) d = g k.
Proof.
  intros Hk. rewrite (nth_indep _ d (g 0%nat)) by (rewrite length_map, length_seq; lia).
  rewrite map_nth, seq_nth by lia. reflexivity.
Qed.

(** ** Rows of a suffix array *)

Section SuffixArray.
Variable t : list sym.
Variable full : list Z.
Hypothesis Hsa : is_suffix_array t full = true.

(** The text position stored at row [i]. *)
Local Abbreviation s i := (Z.to_nat (nth i full 0)).

Lemma sa_length : length full = length t.
Proof.
  unfold is_suffix_array in Hsa. apply andb_true_iff in Hsa as [H _].
  apply andb_true_iff in H as [H _]. apply Nat.eqb_eq. exact H.
Qed.

Lemma sa_range i : (i < length t)%nat -> 0 <= nth i full 0 < Zlen t.
Proof.
  intros Hi. pose proof sa_length as Hl.
  unfold is_suffix_array in Hsa. apply andb_true_iff in Hsa as [H _].
  apply andb_true_iff in H as [_ H]. rewrite forallb_forall in H.
  assert (Hin : In (nth i full 0) full) by (apply nth_In; lia). specialize (H _ Hin).
  apply andb_true_iff in H as [H1 H2]. apply Z.leb_le in H1. apply Z.ltb_lt in H2. lia.
Qed.

Lemma sa_pos i : (i < length t)%nat -> (s i < length t)%nat /\ Z.of_nat (s i) = nth i full 0.
Proof. intros Hi. pose proof (sa_range i Hi). unfold Zlen in *. lia. Qed.

Lemma sa_sorted i j :
  (i < j < length t)%nat -> str_lt (skipn (s i) t) (skipn (s j) t) = true.
Proof.
  intros Hij. unfold is_suffix_array in Hsa. apply andb_true_iff in Hsa as [_ H].
  rewrite forallb_forall in H. assert (Hin : In i (seq 0 (length t))) by (apply in_seq; lia). specialize (H i Hin).
  rewrite forallb_forall in H. apply (H j). apply in_seq. lia.
Qed.

Lemma sa_rows_order i i' :
  (i < length t)%nat -> (i' < length t)%nat ->
  str_lt (skipn (s i') t) (skipn (s i) t) = Nat.ltb i' i.
Proof.
  intros Hi Hi'. destruct (Nat.lt_trichotomy i' i) as [H|[H|H]].
  - rewrite sa_sorted by lia. symmetry. apply Nat.ltb_lt. exact H.
  - subst. rewrite str_lt_irrefl, Nat.ltb_irrefl. reflexivity.
  - rewrite str_lt_asym by (apply sa_sorted; lia). symmetry. apply Nat.ltb_ge. lia.
Qed.

Lemma sa_inj i j : (i < length t)%nat -> (j < length t)%nat -> s i = s j -> i = j.
Proof.
  intros Hi Hj Hs. destruct (Nat.lt_trichotomy i j) as [H|[H|H]]; [|exact H|].
  - pose proof (sa_sorted i j ltac:(lia)) as E. rewrite Hs, str_lt_irrefl in E. discriminate.
  - pose proof (sa_sorted j i ltac:(lia)) as E. rewrite Hs, str_lt_irrefl in E. discriminate.
Qed.

Lemma sa_permutation : Permutation (map (fun i => s i) (seq 0 (length t))) (seq 0 (length t)).
Proof.
  apply NoDup_Permutation_bis.
  - apply (proj2 (NoDup_nth _ 0%nat)). rewrite length_map, length_seq. intros i j Hi Hj Hij.
    rewrite !map_seq_nth in Hij by assumption. apply sa_inj; assumption.
  - rewrite length_map. lia.
  - intros q Hq. apply in_map_iff in Hq. destruct Hq as (i & <- & Hi).
    apply in_seq in Hi. apply in_seq. pose proof (sa_pos i ltac:(lia)). lia.
Qed.

Lemma sa_reindex (P : nat -> bool) :
  length (filter P (seq 0 (length t)))
  = length (filter (fun i => P (s i)) (seq 0 (length t))).
Proof.
  rewrite <- (Permutation_filter_length P _ _ sa_permutation).
  rewrite filter_map_swap, length_map. reflexivity.
Qed.

(** The row of a position is the number of suffixes smaller than its own. *)
Lemma sa_row_rank i :
  (i < length t)%nat ->
  length (filter (fun q => str_lt (skipn q t) (skipn (s i) t)) (seq 0 (length t))) = i.
Proof.
  intros Hi. rewrite sa_reindex.
  rewrite (filter_ext_in _ (fun i' => Nat.ltb i' i)).
  - apply filter_seq_lt. lia.
  - intros i' Hi'. apply in_seq in Hi'. apply sa_rows_order; lia.
Qed.

Lemma sa_surj q : (q < length t)%nat -> exists i, (i < length t)%nat /\ s i = q.
Proof.
  intros Hq. assert (Hin : In q (seq 0 (length t))) by (apply in_seq; lia).
  apply (Permutation_in _ (Permutation_sym sa_permutation)) in Hin.
  apply in_map_iff in Hin. destruct Hin as (i & Hs & Hi). apply in_seq in Hi.
  exists i. split; [lia | exact Hs].
Qed.

End SuffixArray.

(** ** Texts, the F table *)

Lemma count_sym_nonneg c l : 0 <= count_sym c l.
Proof. induction l as [|x l IH]; simpl; [lia|]. unfold b2z. destruct (sym_eqb x c); lia. Qed.

Lemma count_sym_zero_nth c u q d : count_sym c u = 0 -> (q < length u)%nat -> nth q u d <> c.
Proof.
  revert q. induction u as [|x u IH]; intros q H Hq; simpl in *; [lia|].
  pose proof (count_sym_nonneg c u). unfold b2z in H.
  destruct (sym_eqb x c) eqn:E; [lia|].
  destruct q as [|q].
  - intros ->. rewrite sym_eqb_refl in E. discriminate.
  - apply IH; lia.
Qed.

Lemma text_ok_facts t :
  text_ok t = true ->
  (2 <= length t)%nat /\ nth (length t - 1) t Dollar = Dollar
  /\ forall q, (q < length t - 1)%nat -> nth q t Dollar <> Dollar.
Proof.
  unfold text_ok. intros H. apply andb_true_iff in H as [H Hc].
  apply andb_true_iff in H as [Hl He]. apply Nat.leb_le in Hl. apply Z.eqb_eq in Hc.
  unfold ends_with_dollar in He.
  destruct (rev t) as [|x r] eqn:E; [discriminate|]. destruct x; try discriminate.
  assert (Ht : t = rev r ++ [Dollar]) by (rewrite <- (rev_involutive t), E; reflexivity).
  rewrite Ht in Hc |- *. rewrite count_sym_app in Hc. simpl in Hc.
  rewrite length_app. simpl. rewrite Ht, length_app in Hl. simpl in Hl.
  split; [lia|]. split.
  - rewrite app_nth2 by lia. replace (length (rev r) + 1 - 1 - length (rev r))%nat with 0%nat by lia.
    reflexivity.
  - intros q Hq. rewrite app_nth1 by lia. apply count_sym_zero_nth; [lia | lia].
Qed.

Lemma sym_eqb_sym x y : sym_eqb x y = sym_eqb y x.
Proof. unfold sym_eqb. apply Z.eqb_sym. Qed.

Lemma shifts_fold t acc x :
  fold_left (fun shifts ch => fun y => if sym_eqb y ch then shifts y + 1 else shifts y) t acc x
  = acc x + count_sym x t.
Proof.
  revert acc. induction t as [|ch t IH]; intros acc; simpl; [lia|].
  rewrite IH. rewrite (sym_eqb_sym ch x). unfold b2z. destruct (sym_eqb x ch); lia.
Qed.

Lemma filter_smaller_count t c :
  Z.of_nat (length (filter (fun x => sym_ord x <? sym_ord c) t))
  = (if sym_ord Dollar <? sym_ord c then count_sym Dollar t else 0)
    + (if sym_ord A <? sym_ord c then count_sym A t else 0)
    + (if sym_ord C <? sym_ord c then count_sym C t else 0)
    + (if sym_ord G <? sym_ord c then count_sym G t else 0)
    + (if sym_ord N <? sym_ord c then count_sym N t else 0)
    + (if sym_ord T <? sym_ord c then count_sym T t else 0).
Proof.
  induction t as [|x t IH]; [destruct c; reflexivity|].
  cbn [filter count_sym]. destruct (sym_ord x <? sym_ord c) eqn:E; cbn [length].
  - rewrite Nat2Z.inj_succ, IH. destruct x, c; simpl in E; try discriminate; cbn -[Z.add]; lia.
  - rewrite IH. destruct x, c; simpl in E; try discriminate; cbn -[Z.add]; lia.
Qed.

(** [_shifts_f] gives, for each symbol, the number of smaller symbols of the text. *)
Lemma shifts_f_count t c :
  _shifts_f t c = Z.of_nat (length (filter (fun x => sym_ord x <? sym_ord c) t)).
Proof.
  rewrite filter_smaller_count. unfold _shifts_f. cbv zeta. rewrite !shifts_fold.
  destruct c; simpl; lia.
Qed.

Lemma filter_seq_shift1 (R : nat -> bool) n :
  length (filter (fun q => R (S q)) (seq 0 n)) = length (filter R (seq 1 n)).
Proof. rewrite <- seq_shift, filter_map_swap, length_map. reflexivity. Qed.

Lemma filter_prefix (P : nat -> bool) i n :
  (i <= n)%nat ->
  length (filter (fun k => Nat.ltb k i && P k) (seq 0 n)) = length (filter P (seq 0 i)).
Proof.
  intros H. replace n with (i + (n - i))%nat by lia. rewrite seq_app, filter_app, length_app.
  rewrite (filter_ext_in _ P (seq 0 i))
    by (intros k Hk; apply in_seq in Hk; rewrite (proj2 (Nat.ltb_lt k i)) by lia; reflexivity).
  rewrite (filter_ext_in _ (fun _ => false) (seq (0 + i) (n - i))), filter_false
    by (intros k Hk; apply in_seq in Hk; rewrite (proj2 (Nat.ltb_ge k i)) by lia; reflexivity).
  simpl. lia.
Qed.

(** ** The LF mapping *)

Section LF.
Variable t : list sym.
Variable full : list Z.
Hypothesis Hsa : is_suffix_array t full = true.
Hypothesis Hok : text_ok t = true.

Local Abbreviation s i := (Z.to_nat (nth i full 0)).
(** The BWT symbol of row [i]: the symbol before the suffix of the row. *)
Local Abbreviation code_at i := (if Nat.eqb (s i) 0 then Dollar else nth (s i - 1) t Dollar).

Lemma lf_suffix_split q p :
  (q < length t)%nat -> (1 <= p < length t)%nat ->
  str_lt (skipn q t) (skipn (p - 1) t)
  = (sym_ord (nth q t Dollar) <? sym_ord (nth (p - 1) t Dollar))
    || (sym_eqb (nth q t Dollar) (nth (p - 1) t Dollar) && str_lt (skipn (S q) t) (skipn p t)).
Proof.
  intros Hq Hp. rewrite (skipn_nth_cons t q Dollar) by lia.
  rewrite (skipn_nth_cons t (p - 1) Dollar) by lia.
  replace (S (p - 1)) with p by lia. reflexivity.
Qed.

(** Symbols of rows before [i] equal to [c], counted through the positions
    of the text. *)
Lemma lf_same_symbol i c :
  (i < length t)%nat -> c <> Dollar ->
  length (filter (fun q => sym_eqb (nth q t Dollar) c && str_lt (skipn (S q) t) (skipn (s i) t))
            (seq 0 (length t)))
  = length (filter (fun i' => sym_eqb (code_at i') c) (seq 0 i)).
Proof.
  intros Hi Hc. destruct (text_ok_facts t Hok) as (HL & Hlast & _).
  set (R := fun q' => Nat.leb 1 q' && sym_eqb (nth (q' - 1) t Dollar) c
                      && str_lt (skipn q' t) (skipn (s i) t)).
  transitivity (length (filter R (seq 1 (length t)))).
  { rewrite <- filter_seq_shift1. f_equal. apply filter_ext_in. intros q _.
    unfold R. simpl. replace (q - 0)%nat with q by lia. reflexivity. }
  assert (HcL : sym_eqb (nth (length t - 1) t Dollar) c = false).
  { rewrite Hlast. destruct (sym_eqb Dollar c) eqn:E; [|reflexivity].
    apply sym_eqb_eq in E. congruence. }
  transitivity (length (filter R (seq 0 (length t)))).
  { replace (length t) with (S (length t - 1)) by lia.
    rewrite seq_S, <- cons_seq, filter_app, length_app. simpl.
    unfold R at 2. replace (S (length t - 1) - 1)%nat with (length t - 1)%nat by lia.
    rewrite HcL, andb_false_r. simpl. lia. }
  rewrite (sa_reindex t full Hsa).
  rewrite <- (filter_prefix _ i (length t)) by lia. f_equal. apply filter_ext_in.
  intros i' Hi'. apply in_seq in Hi'. unfold R.
  rewrite (sa_rows_order t full Hsa i i') by lia.
  destruct (Nat.eqb (s i') 0) eqn:E0.
  - apply Nat.eqb_eq in E0. rewrite E0. simpl.
    destruct (sym_eqb Dollar c) eqn:E; [apply sym_eqb_eq in E; congruence|].
    rewrite andb_false_r. reflexivity.
  - apply Nat.eqb_neq in E0. replace (Nat.leb 1 (s i')) with true by (symmetry; apply Nat.leb_le; lia).
    simpl. rewrite andb_comm. reflexivity.
Qed.

(** Row [j] holding the suffix one position left of row [i]'s suffix is
    the number of smaller symbols plus the occurrences of the same symbol
    in the rows before [i]. *)
Lemma lf_row i j :
  (i < length t)%nat -> (j < length t)%nat -> (1 <= s i)%nat -> s j = (s i - 1)%nat ->
  j = (length (filter (fun q => (sym_ord (nth q t Dollar) <? sym_ord (nth (s i - 1) t Dollar))%Z)
                (seq 0 (length t)))
       + length (filter (fun i' => sym_eqb (code_at i') (nth (s i - 1) t Dollar)) (seq 0 i)))%nat.
Proof.
  intros Hi Hj H1 Hs.
  destruct (text_ok_facts t Hok) as (HL & Hlast & Hnd).
  destruct (sa_pos t full Hsa i Hi) as [Hsi _].
  assert (Hc : nth (s i - 1) t Dollar <> Dollar) by (apply Hnd; lia).
  rewrite <- (sa_row_rank t full Hsa j Hj) at 1. rewrite Hs.
  rewrite (filter_ext_in _ (fun q => (sym_ord (nth q t Dollar) <? sym_ord (nth (s i - 1) t Dollar))%Z
      || (sym_eqb (nth q t Dollar) (nth (s i - 1) t Dollar)
          && str_lt (skipn (S q) t) (skipn (s i) t))))
    by (intros q Hq; apply in_seq in Hq; apply lf_suffix_split; lia).
  rewrite filter_length_orb_disj.
  - rewrite lf_same_symbol by assumption. reflexivity.
  - intros q _ Hlt. apply Z.ltb_lt in Hlt. destruct (sym_eqb _ _) eqn:E; [|reflexivity].
    apply sym_eqb_eq in E. rewrite E in Hlt. lia.
Qed.

End LF.

(** ** [rank] counts the inclusive prefix *)

Lemma count_prefix_Z ch cd k :
  0 <= k < Zlen cd ->
  count_sym ch (firstn (Z.to_nat (k + 1)) cd)
  = count_sym ch (firstn (Z.to_nat k) cd) + b2z (sym_eqb (nth (Z.to_nat k) cd Dollar) ch).
Proof.
  intros H. replace (Z.to_nat (k + 1)) with (S (Z.to_nat k)) by lia.
  apply count_sym_firstn_S. unfold Zlen in H. lia.
Qed.

Lemma fold_count_range cd ch n : forall lo c0,
  0 <= lo -> lo + Z.of_nat n <= Zlen cd ->
  foldM (fun count down => x <- py_get cd down;; Some (count + b2z (sym_eqb x ch)))
    (range lo (lo + Z.of_nat n)) c0
  = Some (c0 + count_sym ch (firstn (Z.to_nat (lo + Z.of_nat n)) cd)
             - count_sym ch (firstn (Z.to_nat lo) cd)).
Proof.
  induction n as [|n IH]; intros lo c0 H0 H1.
  - rewrite range_nil by lia. simpl. f_equal. replace (lo + 0) with lo by lia. lia.
  - rewrite range_cons by lia. cbn [foldM].
    rewrite (py_get_in cd lo Dollar) by lia. cbn [obind].
    replace (lo + Z.of_nat (S n)) with (lo + 1 + Z.of_nat n) by lia.
    rewrite IH by lia. rewrite (count_prefix_Z ch cd lo) by lia. f_equal. lia.
Qed.

Lemma fold_count_range_down cd ch n : forall hi c0,
  0 <= hi - Z.of_nat n -> hi < Zlen cd ->
  foldM (fun count up => x <- py_get cd up;; Some (count + b2z (sym_eqb x ch)))
    (range_down hi (hi - Z.of_nat n)) c0
  = Some (c0 + count_sym ch (firstn (Z.to_nat (hi + 1)) cd)
             - count_sym ch (firstn (Z.to_nat (hi - Z.of_nat n + 1)) cd)).
Proof.
  induction n as [|n IH]; intros hi c0 H0 H1.
  - rewrite range_down_nil by lia. simpl. f_equal. replace (hi - 0) with hi by lia. lia.
  - rewrite range_down_cons by lia. cbn [foldM].
    rewrite (py_get_in cd hi Dollar) by lia. cbn [obind].
    replace (hi - Z.of_nat (S n)) with (hi - 1 - Z.of_nat n) by lia.
    rewrite IH by lia. rewrite (count_prefix_Z ch cd hi) by lia.
    replace (hi - 1 + 1) with hi by lia. f_equal. lia.
Qed.

Lemma rank_spec b occ cd ch i :
  compression_occ b = occ -> 1 <= occ -> code b = cd ->
  tally b ch = Some (tally_samples occ cd ch (Zlen cd - 1)) -> ch <> Dollar ->
  0 <= i < Zlen cd ->
  rank b ch i = Some (count_sym ch (firstn (Z.to_nat (i + 1)) cd)).
Proof.
  intros Ho H1 Hc Ht Hch Hi. unfold rank. rewrite Ho, Hc.
  replace (sym_eqb ch Dollar) with false
    by (destruct (sym_eqb ch Dollar) eqn:E; [apply sym_eqb_eq in E; congruence | reflexivity]).
  unfold py_mod, py_int_div. replace (occ =? 0) with false by (symmetry; apply Z.eqb_neq; lia).
  cbn [obind]. rewrite Ht. cbn [obind].
  rewrite !Z.quot_div_nonneg by lia.
  pose proof (Z.div_mod i occ ltac:(lia)) as Ed.
  pose proof (Z.mod_pos_bound i occ ltac:(lia)) as Eb.
  assert (Hlim : 0 <= (Zlen cd - 1) / occ) by (apply Z.div_pos; lia).
  pose proof (Z.mul_div_le (Zlen cd - 1) occ ltac:(lia)) as Hml.
  assert (Hq : i / occ <= (Zlen cd - 1) / occ) by (apply Z.div_le_mono; lia).
  assert (Hq0 : 0 <= i / occ) by (apply Z.div_pos; lia).
  destruct (i mod occ =? 0) eqn:Er.
  - apply Z.eqb_eq in Er.
    rewrite tally_samples_get by lia. f_equal. f_equal. f_equal. lia.
  - apply Z.eqb_neq in Er.
    destruct ((2 * (i mod occ) <? occ) || ((Zlen cd - 1) / occ * occ <? i)) eqn:Ec.
    + replace (i - i mod occ) with (i - Z.of_nat (Z.to_nat (i mod occ))) by lia.
      rewrite fold_count_range_down by lia. cbn [obind].
      rewrite tally_samples_get by lia. cbn [obind]. f_equal.
      replace (i / occ * occ + 1) with (i - Z.of_nat (Z.to_nat (i mod occ)) + 1) by lia. lia.
    + apply orb_false_iff in Ec as [_ Ec]. apply Z.ltb_ge in Ec.
      assert (Hq1 : i / occ + 1 <= (Zlen cd - 1) / occ) by nia.
      replace (i + (occ - i mod occ) + 1) with (i + 1 + Z.of_nat (Z.to_nat (occ - i mod occ))) by lia.
      rewrite fold_count_range by nia. cbn [obind].
      replace ((i + occ) / occ) with (i / occ + 1)
        by (replace (i + occ) with (i + 1 * occ) by lia; rewrite Z.div_add by lia; reflexivity).
      rewrite tally_samples_get by lia. cbn [obind]. f_equal.
      replace ((i / occ + 1) * occ + 1) with (i + 1 + Z.of_nat (Z.to_nat (occ - i mod occ))) by lia.
      lia.
Qed.

Lemma count_sym_firstn_filter c l i :
  (i <= length l)%nat ->
  count_sym c (firstn i l) = Z.of_nat (length (filter (fun k => sym_eqb (nth k l Dollar) c) (seq 0 i))).
Proof.
  intros H. rewrite count_sym_filter. f_equal.
  rewrite <- (filter_seq_nth (fun x => sym_eqb x c) (firstn i l) Dollar).
  rewrite length_firstn. replace (Nat.min i (length l)) with i by lia.
  f_equal. apply filter_ext_in. intros k Hk. apply in_seq in Hk.
  rewrite nth_firstn. replace (k <? i)%nat with true by (symmetry; apply Nat.ltb_lt; lia).
  reflexivity.
Qed.

Lemma mapM_nth {X Y} (g : X -> option Y) l r k d d' :
  mapM g l = Some r -> (k < length l)%nat -> g (nth k l d) = Some (nth k r d').
Proof.
  revert r k. induction l as [|x l IH]; intros r k H Hk; simpl in Hk; [lia|].
  simpl in H. destruct (g x) as [y|] eqn:Eg; simpl in H; [|discriminate].
  destruct (mapM g l) as [ys|] eqn:Em; simpl in H; [|discriminate].
  injection H as <-. destruct k as [|k]; simpl; [exact Eg|]. apply IH; [reflexivity | lia].
Qed.

Lemma get_bwt_nth t full cd k :
  is_suffix_array t full = true -> get_bwt t full = Some cd -> (k < length t)%nat ->
  nth k cd Dollar = if Nat.eqb (Z.to_nat (nth k full 0)) 0 then Dollar
                    else nth (Z.to_nat (nth k full 0) - 1) t Dollar.
Proof.
  intros Hsa Hg Hk. pose proof (sa_length t full Hsa) as Hl.
  destruct (sa_pos t full Hsa k Hk) as [Hs Hz].
  unfold get_bwt in Hg. destruct full as [|w ws]; [discriminate|].
  pose proof (mapM_nth _ _ _ k 0 Dollar Hg ltac:(lia)) as E.
  rewrite <- Hz in E. destruct (Nat.eqb (Z.to_nat (nth k (w :: ws) 0)) 0) eqn:E0.
  - apply Nat.eqb_eq in E0. rewrite E0 in E. simpl in E. congruence.
  - apply Nat.eqb_neq in E0.
    replace (Z.of_nat (Z.to_nat (nth k (w :: ws) 0)) =? 0) with false in E
      by (symmetry; apply Z.eqb_neq; lia).
    rewrite (py_get_in t _ Dollar) in E by (unfold Zlen; lia).
    replace (Z.to_nat (Z.of_nat (Z.to_nat (nth k (w :: ws) 0)) - 1))
      with (Z.to_nat (nth k (w :: ws) 0%Z) - 1)%nat in E by lia.
    congruence.
Qed.

(** The first row of a suffix array holds the sentinel suffix. *)
Lemma sa_row0 t full :
  is_suffix_array t full = true -> text_ok t = true ->
  Z.to_nat (nth 0 full 0) = (length t - 1)%nat.
Proof.
  intros Hsa Hok. destruct (text_ok_facts t Hok) as (HL & Hlast & _).
  destruct (sa_surj t full Hsa (length t - 1) ltac:(lia)) as (i0 & Hi0 & Hs0).
  pose proof (sa_row_rank t full Hsa i0 Hi0) as Hr. rewrite Hs0 in Hr.
  rewrite (skipn_nth_cons t (length t - 1) Dollar) in Hr by lia.
  rewrite skipn_all2 in Hr by lia. rewrite Hlast in Hr.
  rewrite (filter_ext_in _ (fun _ => false)), filter_false in Hr.
  - simpl in Hr. subst i0. exact Hs0.
  - intros q Hq. apply in_seq in Hq. rewrite (skipn_nth_cons t q Dollar) by lia.
    cbn [str_lt]. destruct (nth q t Dollar), (skipn (S q) t); reflexivity.
Qed.

Lemma foldM_invariant {X St} (g : St -> X -> option St) (Inv : nat -> St -> Prop) l :
  forall k s0, Inv k s0 ->
  (forall k' s' x, (k <= k' < k + length l)%nat -> Inv k' s' ->
     exists s'', g s' x = Some s'' /\ Inv (S k') s'') ->
  exists s', foldM g l s0 = Some s' /\ Inv (k + length l)%nat s'.
Proof.
  induction l as [|x l IH]; intros k s0 H0 Hs; simpl.
  - exists s0. rewrite Nat.add_0_r. split; [reflexivity | exact H0].
  - destruct (Hs k s0 x ltac:(simpl; lia) H0) as (s1 & E1 & H1). rewrite E1. cbn [obind].
    destruct (IH (S k) s1 H1) as (s' & E & H').
    + intros k' s' y Hk. apply Hs. simpl. lia.
    + exists s'. split; [exact E|]. replace (k + S (length l))%nat with (S k + length l)%nat by lia.
      exact H'.
Qed.

(** ** Walking the LF mapping over a built index *)

Section Walk.
Variable t : list sym.
Variable full : list Z.
Variable b : bw.
Hypothesis Hsa : is_suffix_array t full = true.
Hypothesis Hok : text_ok t = true.
Hypothesis Hcode : get_bwt t full = Some (code b).
Hypothesis Hf : f b = _shifts_f t.
Hypothesis Hocc : 1 <= compression_occ b.
Hypothesis Htally : forall ch, tally b ch = if sym_eqb ch Dollar then None
  else Some (tally_samples (compression_occ b) (code b) ch (Zlen (code b) - 1)).

Local Abbreviation s i := (Z.to_nat (nth i full 0)).
Local Abbreviation code_at i := (if Nat.eqb (s i) 0 then Dollar else nth (s i - 1) t Dollar).

Lemma walk_code_length : length (code b) = length t.
Proof. rewrite (get_bwt_length _ _ _ Hcode). apply (sa_length t full Hsa). Qed.

Lemma walk_lf_step i :
  (i < length t)%nat -> (1 <= s i)%nat ->
  exists j, (j < length t)%nat /\ s j = (s i - 1)%nat
    /\ lf_step b (code_at i) (Z.of_nat i) = Some (code_at j, Z.of_nat j).
Proof.
  intros Hi H1. destruct (text_ok_facts t Hok) as (HL & Hlast & Hnd).
  destruct (sa_pos t full Hsa i Hi) as [Hsi _].
  pose proof walk_code_length as Hlc.
  assert (E0 : Nat.eqb (s i) 0 = false) by (apply Nat.eqb_neq; lia).
  set (c := nth (s i - 1) t Dollar).
  assert (Hc : c <> Dollar) by (apply Hnd; lia).
  assert (Ec : sym_eqb c Dollar = false)
    by (destruct (sym_eqb c Dollar) eqn:E; [apply sym_eqb_eq in E; congruence | reflexivity]).
  destruct (sa_surj t full Hsa (s i - 1) ltac:(lia)) as (j & Hj & Hsj).
  exists j. split; [exact Hj|]. split; [exact Hsj|].
  pose proof (lf_row t full Hsa Hok i j Hi Hj H1 Hsj) as Hrow. fold c in Hrow.
  assert (Hcnt : count_sym c (firstn (Z.to_nat (Z.of_nat i + 1)) (code b))
                 = Z.of_nat (length (filter (fun i' => sym_eqb (code_at i') c) (seq 0 i))) + 1).
  { replace (Z.to_nat (Z.of_nat i + 1)) with (S i) by lia.
    rewrite count_sym_firstn_S by lia.
    rewrite (get_bwt_nth t full (code b) i Hsa Hcode Hi), E0. fold c. rewrite sym_eqb_refl.
    rewrite count_sym_firstn_filter by lia. simpl b2z. f_equal. f_equal. f_equal.
    apply filter_ext_in. intros k Hk. apply in_seq in Hk.
    rewrite (get_bwt_nth t full (code b) k Hsa Hcode) by lia. reflexivity. }
  assert (HF : _shifts_f t c
               = Z.of_nat (length (filter (fun q => (sym_ord (nth q t Dollar) <? sym_ord c)%Z)
                                     (seq 0 (length t))))).
  { rewrite shifts_f_count. f_equal. symmetry.
    apply (filter_seq_nth (fun x => (sym_ord x <? sym_ord c)%Z) t Dollar). }
  rewrite E0. fold c. unfold lf_step.
  rewrite (rank_spec b (compression_occ b) (code b) c (Z.of_nat i)); try reflexivity; try assumption.
  - cbn [obind]. rewrite Hcnt, Hf, HF.
    replace (Z.of_nat (length (filter (fun i' => sym_eqb (code_at i') c) (seq 0 i))) + 1
             + Z.of_nat (length (filter (fun q => (sym_ord (nth q t Dollar) <? sym_ord c)%Z)
                                   (seq 0 (length t)))) - 1)
      with (Z.of_nat j) by lia.
    rewrite (py_get_in _ _ Dollar) by (unfold Zlen; lia). cbn [obind].
    rewrite Nat2Z.id, (get_bwt_nth t full (code b) j Hsa Hcode Hj). reflexivity.
  - rewrite Htally, Ec. reflexivity.
  - unfold Zlen. lia.
Qed.

Lemma walk_removelast_cons k :
  (k < length t - 1)%nat ->
  skipn k (removelast t) = nth k t Dollar :: skipn (S k) (removelast t).
Proof.
  intros Hk. rewrite removelast_firstn_len.
  rewrite (skipn_nth_cons _ k Dollar) by (rewrite length_firstn; lia).
  rewrite nth_firstn. replace (k <? pred (length t))%nat with true by (symmetry; apply Nat.ltb_lt; lia).
  reflexivity.
Qed.

Lemma walk_removelast_end : skipn (length t - 1) (removelast t) = [].
Proof.
  apply skipn_all2. rewrite removelast_firstn_len, length_firstn. lia.
Qed.

Lemma walk_to_string : to_string b = Some (removelast t).
Proof.
  destruct (text_ok_facts t Hok) as (HL & Hlast & Hnd).
  pose proof walk_code_length as Hlc. pose proof (sa_row0 t full Hsa Hok) as H0.
  unfold to_string. rewrite (py_get_in _ _ Dollar) by (unfold Zlen; lia). cbn [obind].
  change (Z.to_nat 0) with 0%nat.
  rewrite (get_bwt_nth t full (code b) 0 Hsa Hcode) by lia.
  replace (Zlen (code b) - 1 - 1) with (Z.of_nat (length t - 2)) by (unfold Zlen; lia).
  match goal with |- context [foldM ?g ?l ?s0] =>
    destruct (foldM_invariant g (walk_inv t full) l 0 s0) as ([[nc nr] orig] & Hfold & Hinv) end.
  - exists 0%nat. split; [lia|]. split; [lia|]. split; [reflexivity|]. split; [reflexivity|].
    rewrite H0. replace (Nat.eqb (length t - 1) 0) with false by (symmetry; apply Nat.eqb_neq; lia).
    replace (length t - 2 - 0)%nat with (length t - 1 - 1)%nat by lia.
    rewrite walk_removelast_cons by lia. replace (S (length t - 1 - 1)) with (length t - 1)%nat by lia.
    rewrite walk_removelast_end. reflexivity.
  - intros k [[nc nr] orig] x Hk (row & Hrow & Hs & -> & -> & ->).
    rewrite length_range in Hk.
    destruct (walk_lf_step row Hrow ltac:(lia)) as (j & Hj & Hsj & Hstep).
    cbn beta iota. rewrite Hstep. cbn [obind].
    eexists. split; [reflexivity|]. exists j. repeat split; [lia | lia |].
    replace (Nat.eqb (s j) 0) with false by (symmetry; apply Nat.eqb_neq; lia).
    rewrite (walk_removelast_cons (length t - 2 - S k)) by lia.
    replace (S (length t - 2 - S k)) with (length t - 2 - k)%nat by lia.
    replace (s j - 1)%nat with (length t - 2 - S k)%nat by lia. reflexivity.
  - rewrite Hfold. cbn [obind]. rewrite length_range in Hinv.
    destruct Hinv as (row & _ & _ & _ & _ & ->). f_equal.
    replace (length t - 2 - (0 + Z.to_nat (Z.of_nat (length t - 2) - 0)))%nat with 0%nat by lia.
    reflexivity.
Qed.

End Walk.

(** ** [suffix_array_simple]: the stable sort of the suffixes *)

Lemma str_lt_trans x y z : str_lt x y = true -> str_lt y z = true -> str_lt x z = true.
Proof.
  revert y z; induction x as [|a x IH]; intros [|b y] [|c z] H1 H2; simpl in *;
    try discriminate; try reflexivity.
  unfold sym_eqb in *. apply orb_true_iff in H1, H2. apply orb_true_iff.
  destruct H1 as [H1|H1]; destruct H2 as [H2|H2].
  - left. apply Z.ltb_lt in H1, H2. apply Z.ltb_lt. lia.
  - apply andb_true_iff in H2 as [H2 _]. apply Z.eqb_eq in H2. apply Z.ltb_lt in H1.
    left. apply Z.ltb_lt. lia.
  - apply andb_true_iff in H1 as [H1 _]. apply Z.eqb_eq in H1. apply Z.ltb_lt in H2.
    left. apply Z.ltb_lt. lia.
  - apply andb_true_iff in H1 as [H1 H1']. apply andb_true_iff in H2 as [H2 H2'].
    apply Z.eqb_eq in H1, H2. right. apply andb_true_iff.
    split; [apply Z.eqb_eq; lia | eapply IH; eassumption].
Qed.

Lemma str_lt_total x y : x <> y -> str_lt x y = true \/ str_lt y x = true.
Proof.
  revert y; induction x as [|a x IH]; intros [|b y] H; simpl.
  - congruence.
  - left; reflexivity.
  - right; reflexivity.
  - unfold sym_eqb. destruct (Z.lt_trichotomy (sym_ord a) (sym_ord b)) as [Hl|[He|Hg]].
    + left. apply orb_true_iff. left. apply Z.ltb_lt. exact Hl.
    + apply sym_ord_inj in He. subst b. rewrite Z.ltb_irrefl, Z.eqb_refl. simpl.
      apply IH. congruence.
    + right. apply orb_true_iff. left. apply Z.ltb_lt. lia.
Qed.

Lemma str_eqb_true x y : str_eqb x y = true -> x = y.
Proof.
  revert y; induction x as [|a x IH]; intros [|b y] H; try reflexivity;
    unfold str_eqb in H; simpl in H; try discriminate.
  apply andb_true_iff in H as [Hl H]. apply andb_true_iff in H as [Hab H].
  apply sym_eqb_eq in Hab. subst b. f_equal. apply IH. unfold str_eqb. rewrite Hl, H. reflexivity.
Qed.

Lemma pair_lt_distinct x y : fst x <> fst y -> pair_lt x y = str_lt (fst x) (fst y).
Proof.
  intros H. unfold pair_lt. destruct (str_eqb (fst x) (fst y)) eqn:E.
  - apply str_eqb_true in E. contradiction.
  - rewrite andb_false_l, orb_false_r. reflexivity.
Qed.

Lemma insert_sorted_perm x l : Permutation (insert_sorted x l) (x :: l).
Proof.
  induction l as [|y l IH]; simpl; [reflexivity|].
  destruct (pair_lt x y); [reflexivity|]. rewrite IH. apply perm_swap.
Qed.

Lemma insert_sorted_sorted x l :
  (forall y, In y l -> fst y <> fst x) ->
  StronglySorted (fun p q => str_lt (fst p) (fst q) = true) l ->
  StronglySorted (fun p q => str_lt (fst p) (fst q) = true) (insert_sorted x l).
Proof.
  induction l as [|y l IH]; intros Hd Hs; simpl.
  - constructor; constructor.
  - apply StronglySorted_inv in Hs as [Hs Hf].
    assert (Hxy : fst x <> fst y) by (intro E; apply (Hd y); [left; reflexivity | symmetry; exact E]).
    rewrite (pair_lt_distinct x y Hxy).
    destruct (str_lt (fst x) (fst y)) eqn:E.
    + constructor; [constructor; assumption|]. constructor; [exact E|].
      eapply Forall_impl; [|exact Hf]. intros z Hz. eapply str_lt_trans; eassumption.
    + destruct (str_lt_total (fst x) (fst y) Hxy) as [E'|E']; [congruence|].
      constructor; [apply IH; [intros z Hz; apply Hd; right; exact Hz | exact Hs]|].
      apply Forall_forall. intros z Hz. apply (Permutation_in _ (insert_sorted_perm x l)) in Hz.
      destruct Hz as [<-|Hz]; [exact E'|]. rewrite Forall_forall in Hf. apply Hf. exact Hz.
Qed.

Lemma fold_insert_sorted l acc :
  NoDup (map fst (l ++ acc)) ->
  StronglySorted (fun p q => str_lt (fst p) (fst q) = true) acc ->
  StronglySorted (fun p q => str_lt (fst p) (fst q) = true)
    (fold_left (fun acc x => insert_sorted x acc) l acc)
  /\ Permutation (fold_left (fun acc x => insert_sorted x acc) l acc) (l ++ acc).
Proof.
  revert acc; induction l as [|x l IH]; intros acc Hnd Hs; simpl.
  - split; [exact Hs | reflexivity].
  - simpl in Hnd.
    assert (Hp : Permutation (l ++ insert_sorted x acc) (x :: l ++ acc)).
    { rewrite insert_sorted_perm. symmetry. apply Permutation_middle. }
    destruct (IH (insert_sorted x acc)) as [H1 H2].
    + apply (Permutation_NoDup (l := map fst (x :: l ++ acc)));
        [apply Permutation_map; symmetry; exact Hp | exact Hnd].
    + apply insert_sorted_sorted; [|exact Hs]. intros y Hy E.
      inversion Hnd as [|? ? Hni _]. apply Hni. rewrite map_app. apply in_or_app. right.
      rewrite <- E. apply in_map. exact Hy.
    + split; [exact H1|]. rewrite H2. exact Hp.
Qed.

Lemma StronglySorted_nth {X} (R : X -> X -> Prop) l d i j :
  StronglySorted R l -> (i < j < length l)%nat -> R (nth i l d) (nth j l d).
Proof.
  revert i j; induction l as [|x l IH]; intros i j Hs Hij; simpl in Hij; [lia|].
  apply StronglySorted_inv in Hs as [Hs Hf]. destruct i as [|i], j as [|j]; try lia.
  - simpl. rewrite Forall_forall in Hf. apply Hf. apply nth_In. lia.
  - simpl. apply IH; [exact Hs | lia].
Qed.

Lemma range_NoDup lo hi : NoDup (range lo hi).
Proof.
  unfold range. apply NoDup_map_NoDup_ForallPairs; [intros a b _ _ E; lia | apply seq_NoDup].
Qed.

Lemma suffixes_NoDup t : NoDup (map fst (map (fun i => (suffix t i, i)) (range 0 (Zlen t)) ++ [])).
Proof.
  rewrite app_nil_r, map_map. apply NoDup_map_NoDup_ForallPairs; [|apply range_NoDup].
  intros a b Ha Hb E. apply In_range in Ha, Hb. simpl in E. unfold suffix in E.
  apply (f_equal (@length sym)) in E. rewrite !length_skipn in E. unfold Zlen in *. lia.
Qed.

(** [suffix_array_simple] returns the suffix array of any text. *)
Lemma simple_sa_ok t : is_suffix_array t (suffix_array_simple t) = true.
Proof.
  pose proof (suffix_array_simple_length t) as Hlen.
  change (suffix_array_simple t)
    with (map snd (py_sorted (map (fun i => (suffix t i, i)) (range 0 (Zlen t))))) in *.
  set (L := map (fun i => (suffix t i, i)) (range 0 (Zlen t))) in *.
  destruct (fold_insert_sorted L [] (suffixes_NoDup t) (SSorted_nil _)) as [Hs Hp].
  rewrite app_nil_r in Hp. change (fold_left _ L []) with (py_sorted L) in Hs, Hp.
  set (Srt := py_sorted L) in *.
  assert (Hgood : forall p, In p Srt -> fst p = suffix t (snd p) /\ 0 <= snd p < Zlen t).
  { intros p Hp'. apply (Permutation_in _ Hp) in Hp'. unfold L in Hp'.
    apply in_map_iff in Hp' as (k & <- & Hk). apply In_range in Hk. simpl. auto. }
  rewrite length_map in Hlen.
  unfold is_suffix_array. apply andb_true_iff; split; [apply andb_true_iff; split|].
  - apply Nat.eqb_eq. rewrite length_map. exact Hlen.
  - apply forallb_forall. intros x Hx. apply in_map_iff in Hx as (p & <- & Hp').
    destruct (Hgood p Hp') as [_ H]. apply andb_true_iff; split; [apply Z.leb_le | apply Z.ltb_lt]; lia.
  - apply forallb_forall. intros i Hi. apply forallb_forall. intros j Hj.
    apply in_seq in Hi, Hj.
    replace (nth i (map snd Srt) 0) with (snd (nth i Srt ([], 0)))
      by (rewrite <- (map_nth snd Srt ([], 0) i); reflexivity).
    replace (nth j (map snd Srt) 0) with (snd (nth j Srt ([], 0)))
      by (rewrite <- (map_nth snd Srt ([], 0) j); reflexivity).
    destruct (Hgood _ (nth_In Srt ([], 0) (ltac:(lia) : (i < length Srt)%nat))) as [Ei _].
    destruct (Hgood _ (nth_In Srt ([], 0) (ltac:(lia) : (j < length Srt)%nat))) as [Ej _].
    rewrite <- Ei, <- Ej. apply (StronglySorted_nth _ Srt ([], 0) i j Hs). lia.
Qed.


